(** * merge_sites.py: a shallow embedding in Rocq

    The script fetches the documents listed in an index, extracts a
    "sites" array from each and merges the entries, deduplicated by
    [normalize_site] (the key-sorted [json.dumps] of an entry).

    Python strings are sequences of Unicode code points: [pystr] is a
    list of [N].  JSON values are the values [json.loads] builds: a
    Python float is held as the token [json.dumps] prints for it
    ([float.__repr__], or NaN / Infinity / -Infinity). *)

From Stdlib Require Import List String Ascii ZArith NArith Bool Lia DecimalPos.
From Stdlib Require Import Sorting.Permutation Sorting.Sorted.
From Stdlib Require Import DecimalZ.
Import ListNotations.
Local Set Warnings "-register-all".

Definition pystr := list N.

(** A Rocq (ASCII) string literal as a Python string. *)
Definition py (s : string) : pystr :=
  map N_of_ascii (list_ascii_of_string s).

(** Literal texts that contain double quotes: a backquote in the Rocq
    literal stands for a double quote. *)
Definition pyq (s : string) : pystr :=
  map (fun c => if (c =? 96)%N then 34%N else c) (py s).

Definition pystr_eqb (a b : pystr) : bool :=
  if list_eq_dec N.eq_dec a b then true else false.


(** ** JSON values *)

Inductive JVal : Type :=
| JNull
| JBool (b : bool)
| JInt (z : Z)
| JFloat (r : pystr)
| JStr (s : pystr)
| JArr (l : list JVal)
| JObj (o : list (pystr * JVal)).

Section JVal_nested_ind.
Variable P : JVal -> Prop.
Hypothesis Hnull : P JNull.
Hypothesis Hbool : forall b, P (JBool b).
Hypothesis Hint : forall z, P (JInt z).
Hypothesis Hfloat : forall r, P (JFloat r).
Hypothesis Hstr : forall s, P (JStr s).
Hypothesis Harr : forall l, Forall P l -> P (JArr l).
Hypothesis Hobj : forall o, Forall (fun kv => P (snd kv)) o -> P (JObj o).

Fixpoint JVal_ind' (v : JVal) : P v :=
  match v with
  | JNull => Hnull
  | JBool b => Hbool b
  | JInt z => Hint z
  | JFloat r => Hfloat r
  | JStr s => Hstr s
  | JArr l =>
      Harr l ((fix go (l : list JVal) : Forall P l :=
                 match l with
                 | [] => Forall_nil _
                 | x :: r => Forall_cons _ (JVal_ind' x) (go r)
                 end) l)
  | JObj o =>
      Hobj o ((fix go (o : list (pystr * JVal))
                 : Forall (fun kv => P (snd kv)) o :=
                 match o with
                 | [] => Forall_nil _
                 | (k, x) :: r =>
                     Forall_cons (P := fun kv => P (snd kv)) (k, x)
                       (JVal_ind' x) (go r)
                 end) o)
  end.
End JVal_nested_ind.

(** Python dict lookup on the association list of a JSON object (a
    dict built by [json.loads] has each key once). *)
Fixpoint lookup (k : pystr) (o : list (pystr * JVal)) : option JVal :=
  match o with
  | [] => None
  | (k', v) :: r => if pystr_eqb k k' then Some v else lookup k r
  end.

(** Python truthiness of a JSON value ([if u:]). *)
Definition truthy (v : JVal) : bool :=
  match v with
  | JNull => false
  | JBool b => b
  | JInt z => negb (Z.eqb z 0)
  | JFloat r => negb (pystr_eqb r (py "0.0") || pystr_eqb r (py "-0.0"))
  | JStr s => negb (pystr_eqb s [])
  | JArr l => negb (Nat.eqb (List.length l) 0)
  | JObj o => negb (Nat.eqb (List.length o) 0)
  end.

(** ** json.dumps *)

(** [int.__repr__]: decimal digits, with a minus sign when negative. *)
Fixpoint uint_chars (u : Decimal.uint) : pystr :=
  match u with
  | Decimal.Nil => []
  | Decimal.D0 u => 48%N :: uint_chars u
  | Decimal.D1 u => 49%N :: uint_chars u
  | Decimal.D2 u => 50%N :: uint_chars u
  | Decimal.D3 u => 51%N :: uint_chars u
  | Decimal.D4 u => 52%N :: uint_chars u
  | Decimal.D5 u => 53%N :: uint_chars u
  | Decimal.D6 u => 54%N :: uint_chars u
  | Decimal.D7 u => 55%N :: uint_chars u
  | Decimal.D8 u => 56%N :: uint_chars u
  | Decimal.D9 u => 57%N :: uint_chars u
  end.

Definition int_repr (z : Z) : pystr :=
  match Z.to_int z with
  | Decimal.Pos u => uint_chars u
  | Decimal.Neg u => 45%N :: uint_chars u
  end.

(** Lower-case hexadecimal digit, as in ['\\u{0:04x}'.format(n)]. *)
Definition hex_digit (n : N) : N :=
  if (n <? 10)%N then (48 + n)%N else (87 + n)%N.

Definition u_escape4 (n : N) : pystr :=
  [92%N; 117%N;
   hex_digit (n / 4096 mod 16); hex_digit (n / 256 mod 16);
   hex_digit (n / 16 mod 16); hex_digit (n mod 16)].

(** [ESCAPE_DCT]: the short escapes shared by both encoders. *)
Definition short_escape (c : N) : option pystr :=
  if (c =? 34)%N then Some [92%N; 34%N]
  else if (c =? 92)%N then Some [92%N; 92%N]
  else if (c =? 10)%N then Some [92%N; 110%N]
  else if (c =? 13)%N then Some [92%N; 114%N]
  else if (c =? 9)%N then Some [92%N; 116%N]
  else if (c =? 8)%N then Some [92%N; 98%N]
  else if (c =? 12)%N then Some [92%N; 102%N]
  else None.

(** [py_encode_basestring] ([ensure_ascii=False]): escape the backslash, the
    double quote and the control characters below U+0020. *)
Definition esc_char (c : N) : pystr :=
  match short_escape c with
  | Some e => e
  | None => if (c <? 32)%N then u_escape4 c else [c]
  end.

(** [py_encode_basestring_ascii] ([ensure_ascii=True]): everything
    outside the printable ASCII range is escaped, as a surrogate pair
    above U+FFFF. *)
Definition esc_char_ascii (c : N) : pystr :=
  match short_escape c with
  | Some e => e
  | None =>
      if (32 <=? c)%N && (c <=? 126)%N then [c]
      else if (c <? 65536)%N then u_escape4 c
      else let n := (c - 65536)%N in
           u_escape4 (55296 + (n / 1024) mod 1024) ++
           u_escape4 (56320 + n mod 1024)
  end.

Definition ser_str (ensure_ascii : bool) (s : pystr) : pystr :=
  34%N :: flat_map (if ensure_ascii then esc_char_ascii else esc_char) s
       ++ [34%N].

Fixpoint join (sep : pystr) (l : list pystr) : pystr :=
  match l with
  | [] => []
  | x :: r => x ++ match r with [] => [] | _ :: _ => sep ++ join sep r end
  end.

(** Code-point order on Python strings ([str.__lt__]). *)
Fixpoint str_ltb (a b : pystr) : bool :=
  match a, b with
  | [], [] => false
  | [], _ :: _ => true
  | _ :: _, [] => false
  | x :: a', y :: b' => (x <? y)%N || ((x =? y)%N && str_ltb a' b')
  end.

(** [sorted(dct.items())]: the keys of a dict are distinct, so the items
    are ordered by key. *)
Fixpoint insert_item {A} (kv : pystr * A) (l : list (pystr * A))
  : list (pystr * A) :=
  match l with
  | [] => [kv]
  | kv' :: r =>
      if str_ltb (fst kv) (fst kv') then kv :: l else kv' :: insert_item kv r
  end.

Definition sort_items {A} (l : list (pystr * A)) : list (pystr * A) :=
  fold_right insert_item [] l.

(** [json.dumps(v, ensure_ascii=ea, sort_keys=sk)] with the default
    separators [", "] and [": "].  The items of a dict are serialized and
    then ordered by key, which is the order [sort_keys] writes them in. *)
Fixpoint dumps (ea sk : bool) (v : JVal) : pystr :=
  match v with
  | JNull => py "null"
  | JBool true => py "true"
  | JBool false => py "false"
  | JInt z => int_repr z
  | JFloat r => r
  | JStr s => ser_str ea s
  | JArr l => 91%N :: join [44%N; 32%N] (map (dumps ea sk) l) ++ [93%N]
  | JObj o =>
      let items := map (fun kv => (fst kv, dumps ea sk (snd kv))) o in
      123%N :: join [44%N; 32%N]
        (map (fun kv => ser_str ea (fst kv) ++ [58%N; 32%N] ++ snd kv)
             (if sk then sort_items items else items)) ++ [125%N]
  end.

(** [normalize_site]: [json.dumps(item, ensure_ascii=False, sort_keys=True)]. *)
Definition normalize_site (item : JVal) : pystr := dumps false true item.

(** ** Structural equality of JSON values

    The notion of the spec: object keys compared by name, not order;
    arrays by value and order; scalars by equality of the decoded value. *)

Definition keys (o : list (pystr * JVal)) : list pystr := map fst o.

Inductive jeq : JVal -> JVal -> Prop :=
| jeq_null : jeq JNull JNull
| jeq_bool b : jeq (JBool b) (JBool b)
| jeq_int z : jeq (JInt z) (JInt z)
| jeq_float r : jeq (JFloat r) (JFloat r)
| jeq_str s : jeq (JStr s) (JStr s)
| jeq_arr l1 l2 : jeq_list l1 l2 -> jeq (JArr l1) (JArr l2)
| jeq_obj o1 o2 :
    (forall k, In k (keys o1) <-> In k (keys o2)) ->
    (forall k v1 v2, lookup k o1 = Some v1 -> lookup k o2 = Some v2 ->
                     jeq v1 v2) ->
    jeq (JObj o1) (JObj o2)
with jeq_list : list JVal -> list JVal -> Prop :=
| jeq_nil : jeq_list [] []
| jeq_cons x y l1 l2 : jeq x y -> jeq_list l1 l2 -> jeq_list (x :: l1) (y :: l2).

(** ** The values json.loads builds

    A dict has each key once, and a float is held as the token
    [json.dumps] prints for it: never empty, never an [int] or a
    [null]/[true]/[false] token, free of the delimiters [,] [\]] [}] and
    not starting like a string, an array or an object. *)

Definition stopc (c : N) : bool := (c =? 44)%N || (c =? 93)%N || (c =? 125)%N.

Fixpoint chars_uint (t : pystr) : Decimal.uint :=
  match t with
  | [] => Decimal.Nil
  | c :: r =>
      let u := chars_uint r in
      if (c =? 48)%N then Decimal.D0 u else if (c =? 49)%N then Decimal.D1 u
      else if (c =? 50)%N then Decimal.D2 u else if (c =? 51)%N then Decimal.D3 u
      else if (c =? 52)%N then Decimal.D4 u else if (c =? 53)%N then Decimal.D5 u
      else if (c =? 54)%N then Decimal.D6 u else if (c =? 55)%N then Decimal.D7 u
      else if (c =? 56)%N then Decimal.D8 u else Decimal.D9 u
  end.

Definition int_of_token (t : pystr) : Z :=
  match t with
  | c :: r => if (c =? 45)%N then Z.of_int (Decimal.Neg (chars_uint r))
              else Z.of_int (Decimal.Pos (chars_uint t))
  | [] => 0%Z
  end.

Definition is_int_repr (r : pystr) : bool := pystr_eqb (int_repr (int_of_token r)) r.

Definition float_tokenb (r : pystr) : bool :=
  match r with
  | [] => false
  | c :: _ => negb ((c =? 34)%N || (c =? 91)%N || (c =? 123)%N)
  end
  && forallb (fun c => negb (stopc c)) r
  && negb (pystr_eqb r (py "null") || pystr_eqb r (py "true")
           || pystr_eqb r (py "false"))
  && negb (is_int_repr r).

Fixpoint nodupb (l : list pystr) : bool :=
  match l with
  | [] => true
  | x :: r => negb (existsb (pystr_eqb x) r) && nodupb r
  end.

Fixpoint tokens_ok (v : JVal) : bool :=
  match v with
  | JFloat r => float_tokenb r
  | JArr l => forallb tokens_ok l
  | JObj o => forallb (fun kv => tokens_ok (snd kv)) o
  | _ => true
  end.

Fixpoint keys_unique (v : JVal) : bool :=
  match v with
  | JArr l => forallb keys_unique l
  | JObj o => nodupb (keys o) && forallb (fun kv => keys_unique (snd kv)) o
  | _ => true
  end.

Definition wf_json (v : JVal) : bool := tokens_ok v && keys_unique v.

(** The value with every object's items ordered by key. *)
Fixpoint norm (v : JVal) : JVal :=
  match v with
  | JArr l => JArr (map norm l)
  | JObj o => JObj (sort_items (map (fun kv => (fst kv, norm (snd kv))) o))
  | _ => v
  end.

(** Reads one escaped character of [py_encode_basestring]'s output. *)
Definition hexval (c : N) : N :=
  if (48 <=? c)%N && (c <=? 57)%N then (c - 48)%N else (c - 87)%N.

Definition read1 (t : pystr) : option (N * pystr) :=
  match t with
  | [] => None
  | c :: t' =>
      if (c =? 92)%N then
        match t' with
        | [] => None
        | e :: t'' =>
            if (e =? 34)%N then Some (34%N, t'')
            else if (e =? 92)%N then Some (92%N, t'')
            else if (e =? 110)%N then Some (10%N, t'')
            else if (e =? 114)%N then Some (13%N, t'')
            else if (e =? 116)%N then Some (9%N, t'')
            else if (e =? 98)%N then Some (8%N, t'')
            else if (e =? 102)%N then Some (12%N, t'')
            else match t'' with
                 | a :: b :: c1 :: d :: t3 =>
                     Some ((hexval a * 4096 + hexval b * 256
                            + hexval c1 * 16 + hexval d)%N, t3)
                 | _ => None
                 end
        end
      else Some (c, t')
  end.

(** A delimiter-free token followed by a delimiter (or the end). *)
Definition stop_or_end (r : pystr) : Prop :=
  match r with [] => True | c :: _ => stopc c = true end.

(** Scalars: [json.dumps] writes them as one token. *)
Definition is_atom (v : JVal) : bool :=
  match v with JNull | JBool _ | JInt _ | JFloat _ => true | _ => false end.

Definition key_lt {A} (x y : pystr * A) : Prop := str_ltb (fst x) (fst y) = true.

(** ** json.loads (the C scanner of CPython's json module)

    A float literal becomes the float that [float()] reads from it; the
    float is held as the token [json.dumps] prints for it, which is
    [float_repr] of the literal.  The recursion limit of the scanner is
    not modelled. *)

Definition json_ws (c : N) : bool :=
  (c =? 32)%N || (c =? 9)%N || (c =? 10)%N || (c =? 13)%N.

Fixpoint skip_ws (t : pystr) : pystr :=
  match t with
  | c :: r => if json_ws c then skip_ws r else t
  | [] => []
  end.

Definition is_digit (c : N) : bool := (48 <=? c)%N && (c <=? 57)%N.

Definition hex_value (c : N) : option N :=
  if is_digit c then Some (c - 48)%N
  else if (97 <=? c)%N && (c <=? 102)%N then Some (c - 87)%N
  else if (65 <=? c)%N && (c <=? 70)%N then Some (c - 55)%N
  else None.

(** Four hexadecimal digits of a [\uXXXX] escape. *)
Definition decode_u4 (t : pystr) : option (N * pystr) :=
  match t with
  | a :: b :: c :: d :: r =>
      match hex_value a, hex_value b, hex_value c, hex_value d with
      | Some a, Some b, Some c, Some d => Some ((a * 4096 + b * 256 + c * 16 + d)%N, r)
      | _, _, _, _ => None
      end
  | _ => None
  end.

Definition simple_escape (e : N) : option N :=
  if (e =? 34)%N then Some 34%N
  else if (e =? 92)%N then Some 92%N
  else if (e =? 47)%N then Some 47%N
  else if (e =? 98)%N then Some 8%N
  else if (e =? 102)%N then Some 12%N
  else if (e =? 110)%N then Some 10%N
  else if (e =? 114)%N then Some 13%N
  else if (e =? 116)%N then Some 9%N
  else None.

Definition is_high_surrogate (c : N) : bool := (55296 <=? c)%N && (c <=? 56319)%N.
Definition is_low_surrogate (c : N) : bool := (56320 <=? c)%N && (c <=? 57343)%N.

(** [scanstring_unicode] (strict): the text after the opening quote;
    returns the string and the text after the closing quote. *)
Fixpoint scan_string (n : nat) (t : pystr) : option (pystr * pystr) :=
  let cont x rest :=
    match n with
    | O => None
    | S n' => match scan_string n' rest with
              | Some (s, r) => Some (x :: s, r)
              | None => None
              end
    end in
  match n with
  | O => None
  | S n' =>
  match t with
  | [] => None
  | c :: r =>
      if (c =? 34)%N then Some ([], r)
      else if (c =? 92)%N then
        match r with
        | [] => None
        | e :: r' =>
            if (e =? 117)%N then
              match decode_u4 r' with
              | None => None
              | Some (c1, r'') =>
                  if is_high_surrogate c1 then
                    match r'' with
                    | b :: u :: r3 =>
                        if (b =? 92)%N && (u =? 117)%N then
                          match decode_u4 r3 with
                          | None => None
                          | Some (c2, r4) =>
                              if is_low_surrogate c2
                              then cont (65536 + (c1 - 55296) * 1024 + (c2 - 56320))%N r4
                              else cont c1 r''
                          end
                        else cont c1 r''
                    | _ => cont c1 r''
                    end
                  else cont c1 r''
              end
            else match simple_escape e with
                 | Some c1 => cont c1 r'
                 | None => None
                 end
        end
      else if (c <? 32)%N then None
      else cont c r
  end
  end.

Fixpoint take_digits (t : pystr) : pystr * pystr :=
  match t with
  | c :: r => if is_digit c then let '(d, rest) := take_digits r in (c :: d, rest)
              else ([], t)
  | [] => ([], [])
  end.

Definition digits_value (ds : pystr) : Z :=
  fold_left (fun acc d => (acc * 10 + Z.of_N (d - 48))%Z) ds 0%Z.

(** CPython's default limit on the digits of an [int] read from text. *)
Definition int_max_str_digits : nat := 4300.

Section Decoder.
(** The token [json.dumps] prints for [float(lit)]. *)
Variable float_repr : pystr -> pystr.

(** [_match_number_unicode]: an optional minus, then 0 or a non-zero digit
    and more digits, an optional fraction of a dot and digits, and an
    optional exponent of e or E, an optional sign and digits. *)
Definition scan_number (t : pystr) : option (JVal * pystr) :=
  let '(neg, t1) := match t with
                    | c :: r => if (c =? 45)%N then (true, r) else (false, t)
                    | [] => (false, [])
                    end in
  let int_part :=
    match t1 with
    | c :: r => if (c =? 48)%N then Some ([c], r)
                else if (49 <=? c)%N && (c <=? 57)%N
                then let '(ds, r') := take_digits r in Some (c :: ds, r')
                else None
    | [] => None
    end in
  match int_part with
  | None => None
  | Some (ip, r1) =>
      let '(frac, r2) :=
        match r1 with
        | dot :: d :: r => if (dot =? 46)%N && is_digit d
                           then let '(ds, r') := take_digits r in (dot :: d :: ds, r')
                           else ([], r1)
        | _ => ([], r1)
        end in
      let '(ex, r3) :=
        match r2 with
        | e :: r => if (e =? 101)%N || (e =? 69)%N then
                      let '(sg, r') := match r with
                                       | s :: r'' => if (s =? 45)%N || (s =? 43)%N
                                                     then ([s], r'') else ([], r)
                                       | [] => ([], [])
                                       end in
                      let '(ds, r'') := take_digits r' in
                      match ds with
                      | [] => ([], r2)
                      | _ => (e :: sg ++ ds, r'')
                      end
                    else ([], r2)
        | [] => ([], [])
        end in
      let numstr := (if neg then [45%N] else []) ++ ip ++ frac ++ ex in
      match frac, ex with
      | [], [] =>
          if Nat.ltb int_max_str_digits (List.length ip) then None
          else Some (JInt (if neg then Z.opp (digits_value ip) else digits_value ip), r3)
      | _, _ => Some (JFloat (float_repr numstr), r3)
      end
  end.

(** [dict[key] = value]: a repeated key keeps its place, with the new value. *)
Fixpoint dict_set (k : pystr) (v : JVal) (o : list (pystr * JVal)) : list (pystr * JVal) :=
  match o with
  | [] => [(k, v)]
  | (k', v') :: r => if pystr_eqb k k' then (k', v) :: r else (k', v') :: dict_set k v r
  end.

Definition starts_with (p t : pystr) : option pystr :=
  if pystr_eqb (firstn (List.length p) t) p then Some (skipn (List.length p) t) else None.

(** [scan_once_unicode], [_parse_array_unicode], [_parse_object_unicode]. *)
Fixpoint parse_value (n : nat) (t : pystr) : option (JVal * pystr) :=
  match n with
  | O => None
  | S n' =>
    match t with
    | [] => None
    | c :: r =>
        if (c =? 34)%N then
          match scan_string (S (List.length r)) r with
          | Some (s, r') => Some (JStr s, r')
          | None => None
          end
        else if (c =? 123)%N then
          match skip_ws r with
          | c' :: r' => if (c' =? 125)%N then Some (JObj [], r')
                        else parse_members n' (c' :: r') []
          | [] => None
          end
        else if (c =? 91)%N then
          match skip_ws r with
          | c' :: r' => if (c' =? 93)%N then Some (JArr [], r')
                        else parse_elems n' (c' :: r') []
          | [] => None
          end
        else match starts_with (py "null") t with
             | Some r' => Some (JNull, r')
             | None =>
        match starts_with (py "true") t with
             | Some r' => Some (JBool true, r')
             | None =>
        match starts_with (py "false") t with
             | Some r' => Some (JBool false, r')
             | None =>
        match starts_with (py "NaN") t with
             | Some r' => Some (JFloat (py "NaN"), r')
             | None =>
        match starts_with (py "Infinity") t with
             | Some r' => Some (JFloat (py "Infinity"), r')
             | None =>
        match starts_with (py "-Infinity") t with
             | Some r' => Some (JFloat (py "-Infinity"), r')
             | None => scan_number t
        end end end end end end
    end
  end
with parse_elems (n : nat) (t : pystr) (acc : list JVal) : option (JVal * pystr) :=
  match n with
  | O => None
  | S n' =>
    match parse_value n' t with
    | None => None
    | Some (v, r) =>
        match skip_ws r with
        | c :: r' => if (c =? 93)%N then Some (JArr (rev (v :: acc)), r')
                     else if (c =? 44)%N then parse_elems n' (skip_ws r') (v :: acc)
                     else None
        | [] => None
        end
    end
  end
with parse_members (n : nat) (t : pystr) (acc : list (pystr * JVal))
  : option (JVal * pystr) :=
  match n with
  | O => None
  | S n' =>
    match t with
    | q :: r =>
        if (q =? 34)%N then
          match scan_string (S (List.length r)) r with
          | None => None
          | Some (k, r1) =>
              match skip_ws r1 with
              | col :: r2 =>
                  if (col =? 58)%N then
                    match parse_value n' (skip_ws r2) with
                    | None => None
                    | Some (v, r3) =>
                        let acc' := dict_set k v acc in
                        match skip_ws r3 with
                        | c :: r4 => if (c =? 125)%N then Some (JObj acc', r4)
                                     else if (c =? 44)%N then parse_members n' (skip_ws r4) acc'
                                     else None
                        | [] => None
                        end
                    end
                  else None
              | [] => None
              end
          end
        else None
    | [] => None
    end
  end.

(** [json.loads(s)]: [None] is any exception it raises.  A fuel of
    [2 |s| + 2] bounds the nesting of the calls above, each of which
    consumes a character. *)
Definition json_loads (s : pystr) : option JVal :=
  match s with
  | c :: _ => if (c =? 65279)%N then None else
      match parse_value (2 * List.length s + 2) (skip_ws s) with
      | Some (v, r) => match skip_ws r with [] => Some v | _ => None end
      | None => None
      end
  | [] => None
  end.
End Decoder.

(** ** Regular expressions of the script *)

(** [\s] of Python's [re] on [str] ([str.isspace]). *)
Definition py_isspace (c : N) : bool :=
  ((9 <=? c)%N && (c <=? 13)%N) || ((28 <=? c)%N && (c <=? 32)%N) ||
  (c =? 133)%N || (c =? 160)%N || (c =? 5760)%N ||
  ((8192 <=? c)%N && (c <=? 8202)%N) || (c =? 8232)%N || (c =? 8233)%N ||
  (c =? 8239)%N || (c =? 8287)%N || (c =? 12288)%N.

Fixpoint skip_space (t : pystr) : pystr :=
  match t with
  | c :: r => if py_isspace c then skip_space r else t
  | [] => []
  end.

(** A character of the pattern under [re.IGNORECASE]: it matches the
    characters whose simple lower case is it or one of its equivalents
    (s and the long s, i and the dotless i). *)
Definition ci_char (p c : N) : bool :=
  if (p =? 115)%N then (c =? 115)%N || (c =? 83)%N || (c =? 383)%N
  else if (p =? 105)%N then (c =? 105)%N || (c =? 73)%N || (c =? 304)%N || (c =? 305)%N
  else if (p =? 116)%N then (c =? 116)%N || (c =? 84)%N
  else if (p =? 101)%N then (c =? 101)%N || (c =? 69)%N
  else (c =? p)%N.

Fixpoint match_lit_ci (p t : pystr) : option pystr :=
  match p, t with
  | [], _ => Some t
  | x :: p', c :: t' => if ci_char x c then match_lit_ci p' t' else None
  | _ :: _, [] => None
  end.

(** The lazy [[\s\S]*?\]]: up to and including the first [\]]. *)
Fixpoint upto_close (t : pystr) : option (pystr * pystr) :=
  match t with
  | [] => None
  | c :: r => if (c =? 93)%N then Some ([c], r)
              else match upto_close r with
                   | Some (cap, r') => Some (c :: cap, r')
                   | None => None
                   end
  end.

(** [SITES_REGEX = re.compile(r'"sites"\s*:\s*(\[[\s\S]*?\])', re.IGNORECASE)]
    tried at one position; the result is group 1. *)
Definition sites_at (t : pystr) : option pystr :=
  match match_lit_ci (pyq "`sites`") t with
  | None => None
  | Some r1 =>
      match skip_space r1 with
      | c :: r2 =>
          if (c =? 58)%N then
            match skip_space r2 with
            | b :: r3 => if (b =? 91)%N then
                           match upto_close r3 with
                           | Some (cap, _) => Some (b :: cap)
                           | None => None
                           end
                         else None
            | [] => None
            end
          else None
      | [] => None
      end
  end.

(** [SITES_REGEX.search(text)]. *)
Fixpoint sites_search (t : pystr) : option pystr :=
  match sites_at t with
  | Some cap => Some cap
  | None => match t with [] => None | _ :: r => sites_search r end
  end.

(** [re.sub(r",\s*([\]\}])", r"\1", s)], scanning left to right. *)
Fixpoint strip_trailing_commas_fuel (n : nat) (t : pystr) : pystr :=
  match n with
  | O => t
  | S n' =>
    match t with
    | [] => []
    | c :: r =>
        if (c =? 44)%N then
          match skip_space r with
          | b :: r' => if (b =? 93)%N || (b =? 125)%N
                       then b :: strip_trailing_commas_fuel n' r'
                       else c :: strip_trailing_commas_fuel n' r
          | [] => c :: strip_trailing_commas_fuel n' r
          end
        else c :: strip_trailing_commas_fuel n' r
    end
  end.

Definition strip_trailing_commas (t : pystr) : pystr :=
  strip_trailing_commas_fuel (List.length t) t.

(** A character other than whitespace, a quote, a double quote or a comma. *)
Definition url_char (c : N) : bool :=
  negb (py_isspace c || (c =? 39)%N || (c =? 34)%N || (c =? 44)%N).

Fixpoint take_url_chars (t : pystr) : pystr * pystr :=
  match t with
  | c :: r => if url_char c then let '(u, rest) := take_url_chars r in (c :: u, rest)
              else ([], t)
  | [] => ([], [])
  end.

(** The URL pattern of the fallback, http, an optional s, then a colon
    and two slashes, then one or more [url_char]s, tried at one position. *)
Definition url_at (t : pystr) : option (pystr * pystr) :=
  match starts_with (py "http") t with
  | None => None
  | Some r =>
      let '(s, r1) := match r with
                      | c :: r' => if (c =? 115)%N then ([c], r') else ([], r)
                      | [] => ([], [])
                      end in
      match starts_with (py "://") r1 with
      | None => None
      | Some r2 =>
          match take_url_chars r2 with
          | ([], _) => None
          | (u, r3) => Some (py "http" ++ s ++ py "://" ++ u, r3)
          end
      end
  end.

Fixpoint url_finditer_fuel (n : nat) (t : pystr) : list pystr :=
  match n with
  | O => []
  | S n' =>
    match t with
    | [] => []
    | _ :: r => match url_at t with
                | Some (u, rest) => u :: url_finditer_fuel n' rest
                | None => url_finditer_fuel n' r
                end
    end
  end.

(** The list of [m.group(0)] for the matches [m] of [re.finditer] of the
    URL pattern over [t]. *)
Definition url_finditer (t : pystr) : list pystr := url_finditer_fuel (List.length t) t.

(** ** extract_sites_from_text *)

Section Extraction.
Variable float_repr : pystr -> pystr.

(** The two shape tests of the [try] block on a parsed document:
    [obj["sites"]] of a dict with a list there, or the list itself. *)
Definition sites_of_parsed (o : option JVal) : option (list JVal) :=
  match o with
  | Some (JObj d) =>
      match lookup (py "sites") d with
      | Some (JArr l) => Some l
      | _ => None
      end
  | Some (JArr l) => Some l
  | _ => None
  end.

(** The code after the [try] block: [SITES_REGEX.search], the parse of
    the captured array and, when that parse raises, the [re.sub] repair. *)
Definition extract_sites_by_regex (text : pystr) : list JVal :=
  match sites_search text with
  | None => []
  | Some arr_text =>
      match json_loads float_repr arr_text with
      | Some (JArr l) => l
      | Some _ => []
      | None =>
          match json_loads float_repr (strip_trailing_commas arr_text) with
          | Some (JArr l) => l
          | _ => []
          end
      end
  end.

Definition extract_sites_from_text (text : pystr) : list JVal :=
  match sites_of_parsed (json_loads float_repr text) with
  | Some l => l
  | None => extract_sites_by_regex text
  end.

(** ** fetch_and_extract *)

(** What [requests.get] gives: an exception (connection error, timeout,
    a URL it rejects), or a response with its status code, the result
    of [r.json()] ([None] when it raises) and [r.text]. *)
Inductive response : Type :=
| RequestFailed
| Response (status_code : Z) (rjson : option JVal) (text : pystr).

(** The body of the [try] block after the status check. *)
Definition sites_of_response (rjson : option JVal) (text : pystr) : list JVal :=
  let structured :=
    match rjson with
    | Some (JObj d) =>
        match lookup (py "sites") d with
        | Some (JArr l) => Some l
        | _ => match lookup (py "sites") d with   (* obj.get("sites") *)
               | Some (JArr l) => Some l
               | _ => None
               end
        end
    | Some (JArr l) => Some l
    | _ => None
    end in
  match structured with
  | Some l => l
  | None =>
      match extract_sites_from_text text with
      | [] => []
      | sites => sites
      end
  end.

(** Observable effects of the loop: an HTTP GET and the delay. *)
Inductive event : Type :=
| EGet (url : JVal)
| ESleep.

(** [fetch_and_extract(url)] against the reply [reply] of the network;
    returns the sites and the requests it made. *)
Definition fetch_and_extract (reply : JVal -> response) (url : JVal)
  : list JVal * list event :=
  if negb (truthy url) then ([], [])
  else match reply url with
       | RequestFailed => ([], [EGet url])
       | Response status rjson text =>
           if negb (status =? 200)%Z then ([], [EGet url])
           else (sites_of_response rjson text, [EGet url])
       end.

(** ** The merge loop of [main] *)

(** [for s in sites: key = normalize_site(s); if key not in seen: ...]. *)
Definition add_sites (sites : list JVal) (acc : list JVal * list pystr)
  : list JVal * list pystr :=
  fold_left (fun acc s =>
               let '(merged, seen) := acc in
               let key := normalize_site s in
               if existsb (pystr_eqb key) seen then (merged, seen)
               else (merged ++ [s], seen ++ [key]))
            sites acc.

Record state : Type := mkState {
  merged : list JVal;
  seen : list pystr;
  processed : Z;
  trace : list event
}.

Definition init_state : state := mkState [] [] 0 [].

Definition gets (tr : list event) : list JVal :=
  flat_map (fun e => match e with EGet u => [u] | ESleep => [] end) tr.

(** The network: the reply to the [k]-th request ([k] counted from 0). *)
Variable net : nat -> JVal -> response.

(** [for u in urls: if args.max and processed >= args.max: break; ...]. *)
Fixpoint merge_loop (max : Z) (urls : list JVal) (st : state) : state :=
  match urls with
  | [] => st
  | u :: us =>
      if negb (max =? 0)%Z && (max <=? processed st)%Z then st
      else
        let '(sites, evs) := fetch_and_extract (net (List.length (gets (trace st)))) u in
        let '(m, sn) := add_sites sites (merged st, seen st) in
        merge_loop max us (mkState m sn (processed st + 1) (trace st ++ evs ++ [ESleep]))
  end.

Definition merge_sites (max : Z) (urls : list JVal) : state :=
  merge_loop max urls init_state.
End Extraction.

(** The accumulation of [main] over the lists the URLs yield, in order. *)
Definition merge_lists (Ls : list (list JVal)) : list JVal :=
  fst (fold_left (fun acc l => add_sites l acc) Ls ([], [])).

(** ** URL resolution in [main] *)

(** [a or b] on JSON values. *)
Definition py_or (a b : JVal) : JVal := if truthy a then a else b.

Definition get_or_none (k : pystr) (d : list (pystr * JVal)) : JVal :=
  match lookup k d with Some v => v | None => JNull end.

(** One entry of [data["urls"]]. *)
Definition entry_urls (entry : JVal) : list JVal :=
  match entry with
  | JObj d =>
      let u := py_or (py_or (get_or_none (py "url") d) (get_or_none (py "Url") d))
                     (get_or_none (py "link") d) in
      if truthy u then [u] else []
  | JStr s => [JStr s]
  | _ => []
  end.

Definition resolve_urls (data : JVal) : list JVal :=
  let fallback := map JStr (url_finditer (dumps true false data)) in
  match data with
  | JObj d =>
      match lookup (py "urls") d with
      | Some (JArr l) => flat_map entry_urls l
      | _ => fallback
      end
  | _ => fallback
  end.

(** ** Readings of the specification *)

(** Keep an element iff no earlier element is structurally equal to it;
    [prev] holds the elements already read. *)
Inductive first_seen : list JVal -> list JVal -> list JVal -> Prop :=
| fs_nil prev : first_seen prev [] []
| fs_keep prev x r out :
    (forall y, In y prev -> ~ jeq x y) ->
    first_seen (prev ++ [x]) r out -> first_seen prev (x :: r) (x :: out)
| fs_drop prev x r out :
    (exists y, In y prev /\ jeq x y) ->
    first_seen (prev ++ [x]) r out -> first_seen prev (x :: r) out.

(** Modelled from the spec: an object entry yields the first present
    value among [url], [Url], [link]. *)
Definition entry_urls_first_present (entry : JVal) : list JVal :=
  match entry with
  | JObj d =>
      match lookup (py "url") d with
      | Some v => [v]
      | None => match lookup (py "Url") d with
                | Some v => [v]
                | None => match lookup (py "link") d with
                          | Some v => [v]
                          | None => []
                          end
                end
      end
  | JStr s => [JStr s]
  | _ => []
  end.

(** The entry rule with the first truthy value among the three keys. *)
Definition entry_urls_first_truthy (entry : JVal) : list JVal :=
  match entry with
  | JObj d =>
      match find (fun k => match lookup k d with Some v => truthy v | None => false end)
                 [py "url"; py "Url"; py "link"] with
      | Some k => match lookup k d with Some v => [v] | None => [] end
      | None => []
      end
  | JStr s => [JStr s]
  | _ => []
  end.

(** The shape a fallback URL has: http, an optional s, a colon and two
    slashes, then one or more [url_char]s. *)
Definition url_shape (u : pystr) : Prop :=
  exists s v, (s = [] \/ s = [115%N]) /\ v <> [] /\ Forall (fun c => url_char c = true) v /\
    u = py "http" ++ s ++ py "://" ++ v.

(** No substring with the URL shape starts at the beginning of [t]. *)
Definition no_url_at (t : pystr) : Prop :=
  forall u r, t = u ++ r -> ~ url_shape u.

(** The matches of the URL pattern in [t], read left to right: each is the
    first substring with the URL shape, taken as long as it goes, and the
    search resumes after it; no match starts after the last one. *)
Inductive url_matches : list pystr -> pystr -> Prop :=
| um_none t :
    (forall i, no_url_at (skipn i t)) -> url_matches [] t
| um_next pre u rest us :
    (forall i, i < List.length pre -> no_url_at (skipn i (pre ++ u ++ rest))) ->
    url_shape u ->
    (forall c r, rest = c :: r -> url_char c = false) ->
    url_matches us rest -> url_matches (u :: us) (pre ++ u ++ rest).


(** ** The output file of [main]

    [json.dump(out, f, ensure_ascii=False, indent=2)] writes the chunks of
    the pure-Python [_make_iterencode]: with an indent, the item separator
    is [","] followed by a newline and the indent of the level, and an
    empty list or dict is written [[]] or [{}]. *)





(** ** What [json.loads] reads back

    A float token is read back when it is what [float.__repr__] prints:
    NaN, Infinity, -Infinity, or a JSON number with a fraction or an
    exponent that [float_repr] leaves as it is.  An [int] is read back
    when it has at most [int_max_str_digits] digits.  With
    [ensure_ascii=True] a string is read back when its code points are
    below U+110000 and no high surrogate stands right before a low one
    (the decoder joins their escapes into one character). *)

Definition digits1 (ds : pystr) : Prop :=
  ds <> [] /\ Forall (fun c => is_digit c = true) ds.

Definition float_literal (float_repr : pystr -> pystr) (r : pystr) : Prop :=
  r = py "NaN" \/ r = py "Infinity" \/ r = py "-Infinity" \/
  (float_repr r = r /\
   exists sg ip fp ex, r = sg ++ ip ++ fp ++ ex /\ (sg = [] \/ sg = [45%N]) /\
     (ip = [48%N] \/ exists d ds, ip = d :: ds /\ (49 <= d <= 57)%N /\
                                   Forall (fun c => is_digit c = true) ds) /\
     (fp = [] \/ exists ds, fp = 46%N :: ds /\ digits1 ds) /\
     (ex = [] \/ exists e sg' ds, ex = e :: sg' ++ ds /\ (e = 101%N \/ e = 69%N) /\
                                  (sg' = [] \/ sg' = [43%N] \/ sg' = [45%N]) /\ digits1 ds) /\
     (fp <> [] \/ ex <> [])).

Fixpoint no_surrogate_pair (s : pystr) : bool :=
  match s with
  | c1 :: ((c2 :: _) as r) =>
      negb (is_high_surrogate c1 && is_low_surrogate c2) && no_surrogate_pair r
  | _ => true
  end.

Definition str_ok (ea : bool) (s : pystr) : Prop :=
  ea = true -> Forall (fun c => (c < 1114112)%N) s /\ no_surrogate_pair s = true.

Fixpoint rt_ok (float_repr : pystr -> pystr) (ea : bool) (v : JVal) : Prop :=
  match v with
  | JInt z => List.length (int_repr (Z.abs z)) <= int_max_str_digits
  | JFloat r => float_literal float_repr r
  | JStr s => str_ok ea s
  | JArr l => fold_right (fun e acc => rt_ok float_repr ea e /\ acc) True l
  | JObj o => fold_right (fun kv acc => str_ok ea (fst kv) /\ rt_ok float_repr ea (snd kv) /\ acc)
                         True o
  | _ => True
  end.

Definition ws_only (w : pystr) : Prop := Forall (fun c => json_ws c = true) w.

(** A text of [v] as the encoders lay it out: the tokens of [json.dumps],
    whitespace after an opening bracket and before a closing one, and
    around the comma and the colon. *)
Inductive laid_out (ea : bool) : JVal -> pystr -> Prop :=
| lo_scalar v :
    match v with JArr _ | JObj _ => False | _ => True end ->
    laid_out ea v (dumps ea false v)
| lo_arr_nil w : ws_only w -> laid_out ea (JArr []) (91%N :: w ++ [93%N])
| lo_arr l ts w1 wa wb w2 :
    l <> [] -> Forall2 (laid_out ea) l ts ->
    ws_only w1 -> ws_only wa -> ws_only wb -> ws_only w2 ->
    laid_out ea (JArr l) (91%N :: w1 ++ join (wa ++ 44%N :: wb) ts ++ w2 ++ [93%N])
| lo_obj_nil w : ws_only w -> laid_out ea (JObj []) (123%N :: w ++ [125%N])
| lo_obj o ts w1 wa wb ka kb w2 :
    o <> [] -> NoDup (keys o) ->
    Forall2 (fun kv t => exists tv, laid_out ea (snd kv) tv /\
                                    t = ser_str ea (fst kv) ++ ka ++ 58%N :: kb ++ tv) o ts ->
    ws_only w1 -> ws_only wa -> ws_only wb -> ws_only ka -> ws_only kb -> ws_only w2 ->
    laid_out ea (JObj o) (123%N :: w1 ++ join (wa ++ 44%N :: wb) ts ++ w2 ++ [125%N]).

(** The calls of the decoder a value needs. *)
Fixpoint jsize (v : JVal) : nat :=
  match v with
  | JArr l => S (list_sum (map (fun e => S (jsize e)) l))
  | JObj o => S (list_sum (map (fun kv => S (jsize (snd kv))) o))
  | _ => 1
  end.

(** The text after a value in a document: the end, whitespace, or the
    delimiter that closes or continues the enclosing array or object. *)
Definition delim_next (rest : pystr) : Prop :=
  forall c r, rest = c :: r -> json_ws c = true \/ c = 44%N \/ c = 93%N \/ c = 125%N.

(** ** Properties of the loop, the regular expressions and the repair *)

(** The events the loop records for one processed URL: the GET when the
    URL is truthy, then the delay. *)
Definition url_events (u : JVal) : list event := (if truthy u then [EGet u] else []) ++ [ESleep].

(** [l1] is [l2] with some elements deleted. *)
Inductive subseq {A} : list A -> list A -> Prop :=
| subseq_nil : subseq [] []
| subseq_keep x l1 l2 : subseq l1 l2 -> subseq (x :: l1) (x :: l2)
| subseq_drop x l1 l2 : subseq l1 l2 -> subseq l1 (x :: l2).

(** A comma or a [\s] character. *)
Definition space_or_comma (c : N) : bool := (c =? 44)%N || py_isspace c.

(** Helpers of the proofs about the accumulator. *)

Ltac repeat_conj := repeat match goal with |- _ /\ _ => split end.

Definition wfs (l : list JVal) : Prop := Forall (fun x => wf_json x = true) l.

Definition same_keys (p m : list JVal) : Prop :=
  forall k, In k (map normalize_site p) <-> In k (map normalize_site m).

(** * Proofs *)

Lemma pystr_eqb_eq a b : pystr_eqb a b = true <-> a = b.
Proof. unfold pystr_eqb; destruct (list_eq_dec N.eq_dec a b); split; congruence. Qed.

Example normalize_site_ex :
  normalize_site (JObj [(py "b", JInt 2); (py "a", JArr [JBool true; JNull])])
  = pyq "{`a`: [true, null], `b`: 2}".
Proof. reflexivity. Qed.

(** ** Injectivity of the serializer *)

Lemma pystr_eqb_refl a : pystr_eqb a a = true.
Proof. apply pystr_eqb_eq; reflexivity. Qed.

Lemma read1_esc_char c t : read1 (esc_char c ++ t) = Some (c, t).
Proof.
  unfold esc_char, short_escape.
  destruct (N.eqb_spec c 34); [subst; reflexivity|].
  destruct (N.eqb_spec c 92); [subst; reflexivity|].
  destruct (N.eqb_spec c 10); [subst; reflexivity|].
  destruct (N.eqb_spec c 13); [subst; reflexivity|].
  destruct (N.eqb_spec c 9); [subst; reflexivity|].
  destruct (N.eqb_spec c 8); [subst; reflexivity|].
  destruct (N.eqb_spec c 12); [subst; reflexivity|].
  destruct (N.ltb_spec c 32).
  - assert (Hc : (N.to_nat c < 32)%nat) by lia.
    rewrite <- (N2Nat.id c) in *. revert Hc.
    generalize (N.to_nat c) as m; intros m Hm.
    do 32 (destruct m as [|m]; [reflexivity|]). lia.
  - simpl. destruct (N.eqb_spec c 92); [lia|reflexivity].
Qed.

Lemma esc_char_head c : exists x t, esc_char c = x :: t /\ x <> 34%N.
Proof.
  unfold esc_char, short_escape.
  destruct (N.eqb_spec c 34); [eexists _, _; split; [reflexivity|lia]|].
  destruct (N.eqb_spec c 92); [eexists _, _; split; [reflexivity|lia]|].
  destruct (N.eqb_spec c 10); [eexists _, _; split; [reflexivity|lia]|].
  destruct (N.eqb_spec c 13); [eexists _, _; split; [reflexivity|lia]|].
  destruct (N.eqb_spec c 9); [eexists _, _; split; [reflexivity|lia]|].
  destruct (N.eqb_spec c 8); [eexists _, _; split; [reflexivity|lia]|].
  destruct (N.eqb_spec c 12); [eexists _, _; split; [reflexivity|lia]|].
  destruct (N.ltb_spec c 32).
  - eexists _, _; split; [reflexivity|lia].
  - eexists _, _; split; [reflexivity|lia].
Qed.

Lemma esc_str_inj s1 s2 r1 r2 :
  flat_map esc_char s1 ++ 34%N :: r1 = flat_map esc_char s2 ++ 34%N :: r2 ->
  s1 = s2 /\ r1 = r2.
Proof.
  revert s2; induction s1 as [|c1 s1 IH]; intros [|c2 s2] H; simpl in H.
  - inversion H; auto.
  - destruct (esc_char_head c2) as (x & t & E & Hx).
    rewrite E in H; simpl in H; inversion H; congruence.
  - destruct (esc_char_head c1) as (x & t & E & Hx).
    rewrite E in H; simpl in H; inversion H; congruence.
  - rewrite <- !app_assoc in H.
    pose proof (f_equal read1 H) as H'.
    rewrite !read1_esc_char in H'. inversion H'; subst.
    destruct (IH s2 H2) as [-> ->]; auto.
Qed.

Lemma ser_str_inj s1 s2 r1 r2 :
  ser_str false s1 ++ r1 = ser_str false s2 ++ r2 -> s1 = s2 /\ r1 = r2.
Proof.
  unfold ser_str; simpl; intros H; inversion H as [H'].
  rewrite <- !app_assoc in H'; simpl in H'.
  apply esc_str_inj in H'; tauto.
Qed.


Lemma token_split t1 t2 r1 r2 :
  forallb (fun c => negb (stopc c)) t1 = true ->
  forallb (fun c => negb (stopc c)) t2 = true ->
  stop_or_end r1 -> stop_or_end r2 ->
  t1 ++ r1 = t2 ++ r2 -> t1 = t2 /\ r1 = r2.
Proof.
  revert t2; induction t1 as [|a t1 IH]; intros [|b t2] H1 H2 S1 S2 E;
    simpl in *; auto.
  - subst r1. simpl in S1. apply andb_prop in H2 as [H2 _].
    rewrite S1 in H2; discriminate.
  - subst r2. simpl in S2. apply andb_prop in H1 as [H1 _].
    rewrite S2 in H1; discriminate.
  - inversion E; subst.
    apply andb_prop in H1 as [_ H1]; apply andb_prop in H2 as [_ H2].
    destruct (IH t2 H1 H2 S1 S2 H3) as [-> ->]; auto.
Qed.

Lemma chars_uint_uint_chars u : chars_uint (uint_chars u) = u.
Proof. induction u; simpl; rewrite ?IHu; reflexivity. Qed.

Lemma uint_chars_head u c t : uint_chars u = c :: t -> (48 <= c <= 57)%N.
Proof. destruct u; simpl; intros H; inversion H; lia. Qed.

Lemma uint_chars_nostop u : forallb (fun c => negb (stopc c)) (uint_chars u) = true.
Proof. induction u; simpl; rewrite ?IHu; reflexivity. Qed.

Lemma int_of_token_repr z : int_of_token (int_repr z) = z.
Proof.
  rewrite <- (DecimalZ.of_to z) at 2. unfold int_repr.
  destruct (Z.to_int z) as [u|u] eqn:E.
  - unfold int_of_token. destruct (uint_chars u) as [|c t] eqn:Eu.
    + destruct u; simpl in Eu; try discriminate. reflexivity.
    + apply uint_chars_head in Eu as Hc.
      destruct (N.eqb_spec c 45); [lia|]. rewrite <- Eu, chars_uint_uint_chars.
      reflexivity.
  - simpl. rewrite chars_uint_uint_chars. reflexivity.
Qed.

Lemma int_repr_inj z1 z2 : int_repr z1 = int_repr z2 -> z1 = z2.
Proof.
  intros H. rewrite <- (int_of_token_repr z1), <- (int_of_token_repr z2), H.
  reflexivity.
Qed.

Lemma int_repr_shape z :
  exists c t, int_repr z = c :: t /\ (c = 45%N \/ (48 <= c <= 57)%N) /\
              forallb (fun c => negb (stopc c)) (c :: t) = true.
Proof.
  unfold int_repr. destruct (Z.to_int z) as [u|u] eqn:E.
  - destruct (uint_chars u) as [|c t] eqn:Eu.
    + exfalso. destruct u; simpl in Eu; try discriminate.
      pose proof (DecimalZ.of_to z) as Hz. rewrite E in Hz.
      simpl in Hz. subst z. discriminate.
    + exists c, t. split; [reflexivity|]. split.
      * right. eapply uint_chars_head; eauto.
      * rewrite <- Eu. apply uint_chars_nostop.
  - exists 45%N, (uint_chars u). split; [reflexivity|]. split; [auto|].
    simpl. apply uint_chars_nostop.
Qed.

Lemma is_int_repr_int_repr z : is_int_repr (int_repr z) = true.
Proof. unfold is_int_repr. rewrite int_of_token_repr. apply pystr_eqb_refl. Qed.

Lemma atom_token ea sk v :
  is_atom v = true -> tokens_ok v = true ->
  exists c t, dumps ea sk v = c :: t /\ (c <> 34 /\ c <> 91 /\ c <> 123)%N /\
              forallb (fun c => negb (stopc c)) (c :: t) = true.
Proof.
  destruct v as [| [] | z | r | | |]; simpl; intros Ha T; try discriminate.
  - eexists _, _; split; [reflexivity|]; split; [vm_compute; lia|reflexivity].
  - eexists _, _; split; [reflexivity|]; split; [vm_compute; lia|reflexivity].
  - eexists _, _; split; [reflexivity|]; split; [vm_compute; lia|reflexivity].
  - destruct (int_repr_shape z) as (c & t & E & Hc & Hs).
    exists c, t; repeat split; auto; lia.
  - destruct r as [|c t]; [discriminate|].
    unfold float_tokenb in T. apply andb_prop in T as [T _].
    apply andb_prop in T as [T _]. apply andb_prop in T as [T1 T2].
    exists c, t; split; [reflexivity|]; split; [|exact T2].
    destruct (N.eqb_spec c 34), (N.eqb_spec c 91), (N.eqb_spec c 123);
      simpl in T1; try discriminate; lia.
Qed.

Lemma dumps_head v :
  tokens_ok v = true -> exists c t, dumps false false v = c :: t /\ stopc c = false.
Proof.
  destruct (is_atom v) eqn:Ha; intros T.
  - destruct (atom_token false false v Ha T) as (c & t & E & _ & Hs).
    exists c, t; split; auto. simpl in Hs. destruct (stopc c); auto.
  - destruct v; try discriminate; simpl; eexists _, _; split; reflexivity.
Qed.

Lemma atom_inj a b :
  is_atom a = true -> is_atom b = true -> tokens_ok a = true -> tokens_ok b = true ->
  dumps false false a = dumps false false b -> a = b.
Proof.
  assert (Hf : forall r, float_tokenb r = true -> forall z, r <> int_repr z).
  { intros r T z ->. unfold float_tokenb in T.
    rewrite is_int_repr_int_repr, andb_false_r in T. discriminate. }
  assert (Hl : forall z s, (s = py "null" \/ s = py "true" \/ s = py "false") ->
                           int_repr z <> s).
  { intros z s Hs E. destruct (int_repr_shape z) as (c & t & E' & Hc & _).
    rewrite E' in E. destruct Hs as [-> | [-> | ->]]; inversion E; subst; lia. }
  destruct a as [| [] | z | r | | |], b as [| [] | z' | r' | | |];
    simpl; intros Ha Hb Ta Tb E; try discriminate; auto;
    try (exfalso; eapply Hl; [|symmetry; exact E]; auto; fail);
    try (exfalso; eapply Hl; [|exact E]; auto; fail);
    try (subst; discriminate);
    try (exfalso; eapply Hf; [exact Tb|]; symmetry; exact E);
    try (exfalso; eapply Hf; [exact Ta|]; exact E).
  - f_equal. apply int_repr_inj, E.
  - f_equal. exact E.
Qed.

Lemma join_inj {A} (f : A -> pystr) (ok : A -> Prop) (close : N) :
  stopc close = true -> close <> 44%N ->
  (forall a, ok a -> exists c t, f a = c :: t /\ stopc c = false) ->
  forall l1, Forall (fun a => forall b s1 s2, ok a -> ok b ->
                       stop_or_end s1 -> stop_or_end s2 ->
                       f a ++ s1 = f b ++ s2 -> a = b /\ s1 = s2) l1 ->
  forall l2 r1 r2, Forall ok l1 -> Forall ok l2 ->
  join [44%N; 32%N] (map f l1) ++ close :: r1 =
  join [44%N; 32%N] (map f l2) ++ close :: r2 -> l1 = l2 /\ r1 = r2.
Proof.
  intros Hc Hc44 Hhead l1 IHl.
  induction IHl as [|a l1 IHa IHl IH]; intros [|b l2] r1 r2 O1 O2 E; simpl in E.
  - inversion E; auto.
  - inversion O2 as [|? ? Ob _]; subst.
    destruct (Hhead b Ob) as (c & t & Eb & Sb).
    rewrite <- app_assoc, Eb in E. inversion E; subst. congruence.
  - inversion O1 as [|? ? Oa _]; subst.
    destruct (Hhead a Oa) as (c & t & Ea & Sa).
    rewrite <- app_assoc, Ea in E. inversion E; subst. congruence.
  - inversion O1 as [|? ? Oa O1']; inversion O2 as [|? ? Ob O2']; subst.
    rewrite <- !app_assoc in E.
    assert (Hs : forall (l : list A) r,
               stop_or_end ((match map f l with
                             | [] => [] | _ :: _ => [44%N; 32%N] ++ join [44%N; 32%N] (map f l)
                             end) ++ close :: r)).
    { intros [|x l] r; simpl; auto. }
    destruct (IHa b _ _ Oa Ob (Hs l1 r1) (Hs l2 r2) E) as [-> E'].
    destruct l1 as [|a1 l1], l2 as [|b1 l2]; simpl in E'.
    + inversion E'; auto.
    + inversion E'; congruence.
    + inversion E'; congruence.
    + inversion E' as [E''].
      destruct (IH (b1 :: l2) r1 r2 O1' O2' E'') as [H1 H2].
      rewrite H1, H2; auto.
Qed.

Lemma dumps_atom_vs_compound a b r1 r2 :
  is_atom a = true -> is_atom b = false -> tokens_ok a = true ->
  dumps false false a ++ r1 <> dumps false false b ++ r2.
Proof.
  intros Ha Hb Ta E.
  destruct (atom_token false false a Ha Ta) as (c & t & Ea & Hc & _).
  rewrite Ea in E.
  destruct b; try discriminate; simpl in E; inversion E; lia.
Qed.

Lemma dumps_inj a :
  forall b r1 r2, tokens_ok a = true -> tokens_ok b = true ->
  stop_or_end r1 -> stop_or_end r2 ->
  dumps false false a ++ r1 = dumps false false b ++ r2 -> a = b /\ r1 = r2.
Proof.
  induction a as [| bo | z | fr | s | l IH | o IH] using JVal_ind';
    intros b r1 r2 Ta Tb S1 S2 E;
    destruct (is_atom b) eqn:Hb;
    try (exfalso; eapply dumps_atom_vs_compound; [| | |symmetry; exact E]; eauto; fail);
    try (exfalso; eapply dumps_atom_vs_compound; [| | |exact E]; eauto; fail).
  (* the remaining pairs of scalars *)
  1-4: match type of Ta with tokens_ok ?a = true =>
        destruct (atom_token false false a eq_refl Ta) as (c & t & Ea & _ & Ha) end;
      destruct (atom_token false false b Hb Tb) as (c' & t' & Eb & _ & Hb');
      rewrite <- Ea, <- Eb in *;
      destruct (token_split _ _ _ _ Ha Hb' S1 S2 E) as [E1 ->];
      split; auto; apply atom_inj; auto.
  - (* string *)
    destruct b; try discriminate; simpl in E; try (inversion E; fail).
    change (ser_str false s ++ r1 = ser_str false s0 ++ r2) in E.
    destruct (ser_str_inj _ _ _ _ E) as [-> ->]; auto.
  - (* array *)
    destruct b as [| | | | | l2 | o2]; try discriminate; simpl in E; inversion E as [E'].
    rewrite <- !app_assoc in E'; simpl in E'.
    simpl in Ta, Tb. rewrite forallb_forall in Ta, Tb.
    destruct (join_inj (dumps false false) (fun v => tokens_ok v = true) 93%N
                eq_refl ltac:(discriminate) dumps_head l) with (l2 := l2) (r1 := r1) (r2 := r2)
      as [-> ->]; auto; apply Forall_forall; auto.
  - (* object *)
    destruct b as [| | | | | l2 | o2]; try discriminate; simpl in E; inversion E as [E'].
    rewrite <- !app_assoc in E'; simpl in E'. rewrite !map_map in E'. simpl in E'.
    simpl in Ta, Tb. rewrite forallb_forall in Ta, Tb.
    destruct (join_inj (fun kv => ser_str false (fst kv) ++ [58%N; 32%N] ++ dumps false false (snd kv))
                (fun kv => tokens_ok (snd kv) = true) 125%N
                eq_refl ltac:(discriminate)) with (l1 := o) (l2 := o2) (r1 := r1) (r2 := r2)
      as [-> ->]; auto.
    + intros kv _. simpl. eexists _, _; split; reflexivity.
    + eapply Forall_impl; [|exact IH]. intros [k v] Hv [k' v'] s1 s2 T1 T2 S1' S2' Ekv.
      simpl in *. inversion Ekv as [Ekv1]. rewrite <- !app_assoc in Ekv1. simpl in Ekv1.
      destruct (esc_str_inj _ _ _ _ Ekv1) as [-> Ekv'].
      inversion Ekv' as [Ekv''].
      destruct (Hv v' s1 s2 T1 T2 S1' S2' Ekv'') as [-> ->]; auto.
    + apply Forall_forall; auto.
    + apply Forall_forall; auto.
Qed.

(** ** Sorting the items of a dict *)

Lemma str_ltb_irrefl a : str_ltb a a = false.
Proof. induction a; simpl; auto. rewrite N.ltb_irrefl, N.eqb_refl; auto. Qed.

Lemma str_ltb_trans a b c :
  str_ltb a b = true -> str_ltb b c = true -> str_ltb a c = true.
Proof.
  revert b c; induction a as [|x a IH]; intros [|y b] [|z c]; simpl; auto;
    try discriminate.
  intros H1 H2. apply orb_true_iff in H1, H2. apply orb_true_iff.
  destruct H1 as [H1|H1], H2 as [H2|H2].
  - apply N.ltb_lt in H1, H2. left; apply N.ltb_lt; lia.
  - apply andb_true_iff in H2 as [E2 _]. apply N.ltb_lt in H1. apply N.eqb_eq in E2.
    left; apply N.ltb_lt; lia.
  - apply andb_true_iff in H1 as [E1 _]. apply N.ltb_lt in H2. apply N.eqb_eq in E1.
    left; apply N.ltb_lt; lia.
  - apply andb_true_iff in H1 as [E1 H1], H2 as [E2 H2].
    apply N.eqb_eq in E1, E2.
    right; apply andb_true_iff; split; [apply N.eqb_eq; lia|]. eauto.
Qed.

Lemma str_ltb_total a b : a <> b -> str_ltb a b = true \/ str_ltb b a = true.
Proof.
  revert b; induction a as [|x a IH]; intros [|y b] H; simpl; auto;
    try (exfalso; congruence).
  destruct (N.lt_trichotomy x y) as [Hl|[<-|Hl]].
  - left; apply orb_true_iff; left; apply N.ltb_lt; auto.
  - rewrite N.ltb_irrefl, N.eqb_refl; simpl.
    apply IH; congruence.
  - right; apply orb_true_iff; left; apply N.ltb_lt; auto.
Qed.

Lemma str_ltb_asym a b : str_ltb a b = true -> str_ltb b a = false.
Proof.
  intros H. destruct (str_ltb b a) eqn:E; auto.
  pose proof (str_ltb_trans _ _ _ H E). rewrite str_ltb_irrefl in *; discriminate.
Qed.

Lemma insert_item_perm {A} (kv : pystr * A) l : Permutation (insert_item kv l) (kv :: l).
Proof.
  induction l as [|kv' l IH]; simpl; auto.
  destruct (str_ltb _ _); auto.
  eapply perm_trans; [apply perm_skip, IH|]. apply perm_swap.
Qed.

Lemma sort_items_perm {A} (l : list (pystr * A)) : Permutation (sort_items l) l.
Proof.
  induction l as [|kv l IH]; simpl; auto.
  eapply perm_trans; [apply insert_item_perm|]. auto.
Qed.


Lemma insert_item_sorted {A} (kv : pystr * A) l :
  StronglySorted key_lt l -> ~ In (fst kv) (map fst l) ->
  StronglySorted key_lt (insert_item kv l).
Proof.
  induction l as [|kv' l IH]; simpl; intros S Hn.
  - repeat constructor.
  - inversion S as [|? ? S' F]; subst.
    destruct (str_ltb (fst kv) (fst kv')) eqn:E.
    + constructor; [exact S|]. constructor; [exact E|].
      eapply Forall_impl; [|exact F]. intros y Hy. eapply str_ltb_trans; eauto.
    + constructor; [apply IH; tauto|].
      apply Forall_forall. intros y Hy.
      apply (Permutation_in _ (insert_item_perm _ _)) in Hy as [<-|Hy].
      * unfold key_lt. destruct (str_ltb_total (fst kv') (fst kv)) as [H|H]; auto;
          try congruence; intros Heq; apply Hn; left; congruence.
      * rewrite Forall_forall in F. auto.
Qed.

Lemma sort_items_sorted {A} (l : list (pystr * A)) :
  NoDup (map fst l) -> StronglySorted key_lt (sort_items l).
Proof.
  induction l as [|kv l IH]; simpl; intros Hn.
  - constructor.
  - inversion Hn; subst. apply insert_item_sorted; auto.
    intros Hin; apply H1. apply in_map_iff in Hin as [y [Ey Hy]].
    apply (Permutation_in _ (sort_items_perm _)) in Hy.
    rewrite <- Ey. apply in_map; auto.
Qed.

Lemma sorted_unique {A} (l1 l2 : list (pystr * A)) :
  StronglySorted key_lt l1 -> StronglySorted key_lt l2 ->
  (forall x, In x l1 <-> In x l2) -> l1 = l2.
Proof.
  revert l2; induction l1 as [|a l1 IH]; intros [|b l2] S1 S2 H.
  - reflexivity.
  - exfalso; apply (H b); left; auto.
  - exfalso; apply (H a); left; auto.
  - inversion S1 as [|? ? S1' F1]; inversion S2 as [|? ? S2' F2]; subst.
    rewrite Forall_forall in F1, F2.
    assert (a = b).
    { destruct (proj1 (H a) (or_introl eq_refl)) as [|Ha]; auto.
      destruct (proj2 (H b) (or_introl eq_refl)) as [|Hb]; auto.
      specialize (F1 _ Hb); specialize (F2 _ Ha). unfold key_lt in *.
      rewrite (str_ltb_asym _ _ F1) in F2; discriminate. }
    subst b. f_equal. apply IH; auto.
    intros x; split; intros Hx.
    + destruct (proj1 (H x) (or_intror Hx)) as [<-|]; auto.
      specialize (F1 _ Hx); unfold key_lt in F1; rewrite str_ltb_irrefl in F1; discriminate.
    + destruct (proj2 (H x) (or_intror Hx)) as [<-|]; auto.
      specialize (F2 _ Hx); unfold key_lt in F2; rewrite str_ltb_irrefl in F2; discriminate.
Qed.

Lemma sort_items_map {A B} (f : A -> B) (l : list (pystr * A)) :
  sort_items (map (fun kv => (fst kv, f (snd kv))) l) =
  map (fun kv => (fst kv, f (snd kv))) (sort_items l).
Proof.
  induction l as [|kv l IH]; simpl; auto. rewrite IH.
  generalize (sort_items l) as s; intros s.
  induction s as [|kv' s IHs]; simpl; auto.
  destruct (str_ltb _ _); simpl; auto. rewrite IHs; auto.
Qed.

(** ** Lookups in a dict *)

Lemma nodupb_NoDup l : nodupb l = true <-> NoDup l.
Proof.
  induction l as [|x l IH]; simpl.
  - split; auto using NoDup_nil.
  - rewrite andb_true_iff, negb_true_iff, IH. split.
    + intros [H1 H2]. constructor; auto. intros Hin.
      assert (existsb (pystr_eqb x) l = true) by
        (apply existsb_exists; exists x; split; auto; apply pystr_eqb_refl).
      congruence.
    + intros Hn; inversion Hn; subst. split; auto.
      destruct (existsb (pystr_eqb x) l) eqn:E; auto.
      apply existsb_exists in E as [y [Hy Ey]]. apply pystr_eqb_eq in Ey; subst. tauto.
Qed.

Lemma lookup_In k o v : lookup k o = Some v -> In (k, v) o.
Proof.
  induction o as [|[k' v'] o IH]; simpl; try discriminate.
  destruct (pystr_eqb k k') eqn:E; intros H.
  - apply pystr_eqb_eq in E; inversion H; subst; auto.
  - auto.
Qed.

Lemma In_lookup k o v : NoDup (keys o) -> In (k, v) o -> lookup k o = Some v.
Proof.
  induction o as [|[k' v'] o IH]; simpl; intros Hn Hin; [contradiction|].
  inversion Hn as [|? ? Hk Hn']; subst.
  destruct Hin as [E|Hin].
  - inversion E; subst. rewrite pystr_eqb_refl; auto.
  - destruct (pystr_eqb k k') eqn:E.
    + apply pystr_eqb_eq in E; subst. exfalso; apply Hk.
      change k' with (fst (k', v)). apply in_map; auto.
    + auto.
Qed.

Lemma In_keys_lookup k o : In k (keys o) -> exists v, lookup k o = Some v.
Proof.
  induction o as [|[k' v'] o IH]; simpl; intros H; [contradiction|].
  destruct (pystr_eqb k k') eqn:E; eauto.
  destruct H as [<-|H]; auto. rewrite pystr_eqb_refl in E; discriminate.
Qed.

Lemma In_keys k v o : In (k, v) o -> In k (keys o).
Proof. intros H. change k with (fst (k, v)). apply in_map; auto. Qed.

(** ** Key-sorted serialization and normal forms *)

Lemma keys_map_norm o :
  map fst (map (fun kv => (fst kv, norm (snd kv))) o) = keys o.
Proof. rewrite map_map; reflexivity. Qed.

Lemma In_sort_norm o k w :
  In (k, w) (sort_items (map (fun kv => (fst kv, norm (snd kv))) o)) <->
  exists v, In (k, v) o /\ w = norm v.
Proof.
  split; intros H.
  - apply (Permutation_in _ (sort_items_perm _)) in H.
    apply in_map_iff in H as [[k' v] [E Hin]]. simpl in E. inversion E; subst. eauto.
  - destruct H as [v [Hin ->]].
    apply (Permutation_in _ (Permutation_sym (sort_items_perm _))).
    apply in_map_iff. exists (k, v); auto.
Qed.

Lemma dumps_sort_keys_norm ea v : dumps ea true v = dumps ea false (norm v).
Proof.
  induction v as [| | | | | l IH | o IH] using JVal_ind'; try reflexivity.
  - simpl. rewrite map_map. do 3 f_equal.
    apply map_ext_in. intros a Ha. rewrite Forall_forall in IH. apply IH; auto.
  - simpl. rewrite sort_items_map, !map_map, sort_items_map, !map_map. simpl.
    do 3 f_equal. apply map_ext_in. intros [k x] Hin. simpl. do 3 f_equal.
    rewrite Forall_forall in IH.
    apply (Permutation_in _ (sort_items_perm _)) in Hin. specialize (IH (k, x) Hin); simpl in IH. rewrite IH; auto.
Qed.

Lemma tokens_ok_norm v : tokens_ok v = true -> tokens_ok (norm v) = true.
Proof.
  induction v as [| | | | | l IH | o IH] using JVal_ind'; simpl; auto;
    rewrite !forallb_forall; intros H x Hx; rewrite Forall_forall in IH.
  - apply in_map_iff in Hx as [y [<- Hy]]. auto.
  - destruct x as [k w]. apply In_sort_norm in Hx as [y [Hy ->]].
    apply (IH (k, y) Hy), (H (k, y) Hy).
Qed.

Lemma jeq_norm a :
  forall b, keys_unique a = true -> keys_unique b = true -> jeq a b -> norm a = norm b.
Proof.
  induction a as [| bo | z | fr | s | l IH | o IH] using JVal_ind';
    intros b Ka Kb J; inversion J; subst; auto.
  - simpl in *. f_equal. rewrite forallb_forall in Ka, Kb.
    match goal with Hl : jeq_list l ?l2 |- _ => revert Hl Kb; generalize l2 end.
    clear J. induction IH as [|x l Hx IH IHl]; intros l' Hl Kb; inversion Hl; subst; simpl; auto.
    f_equal.
    + apply Hx; [apply Ka; left| apply Kb; left|]; auto.
    + apply IHl; auto. intros w Hw; apply Ka; right; auto.
      intros w Hw; apply Kb; right; auto.
  - simpl in *. f_equal. apply andb_true_iff in Ka as [Na Ka], Kb as [Nb Kb].
    apply nodupb_NoDup in Na, Nb. rewrite forallb_forall in Ka, Kb.
    rewrite Forall_forall in IH.
    match goal with H1 : forall k, In k (keys o) <-> In k (keys ?o2) |- _ =>
      rename o2 into o'; rename H1 into Hk end.
    match goal with H2 : forall k v1 v2, lookup k o = Some v1 -> _ -> jeq v1 v2 |- _ =>
      rename H2 into Hv end.
    apply sorted_unique; try (apply sort_items_sorted; rewrite keys_map_norm; auto).
    intros [k w]; rewrite !In_sort_norm; split; intros [v [Hin ->]].
    + destruct (In_keys_lookup k o') as [v' Hv']; [apply Hk; eapply In_keys; eauto|].
      exists v'; split; [apply lookup_In; auto|].
      apply (IH (k, v) Hin);
        [apply (Ka (k, v) Hin) | apply (Kb (k, v') (lookup_In _ _ _ Hv')) |].
      apply (Hv k); auto. apply In_lookup; auto.
    + destruct (In_keys_lookup k o) as [v' Hv']; [apply Hk; eapply In_keys; eauto|].
      exists v'; split; [apply lookup_In; auto|].
      symmetry. apply (IH (k, v') (lookup_In _ _ _ Hv'));
        [apply (Ka (k, v') (lookup_In _ _ _ Hv')) | apply (Kb (k, v) Hin) |].
      apply (Hv k); auto. apply In_lookup; auto.
Qed.

Lemma norm_jeq a :
  forall b, keys_unique a = true -> keys_unique b = true -> norm a = norm b -> jeq a b.
Proof.
  induction a as [| bo | z | fr | s | l IH | o IH] using JVal_ind';
    intros b Ka Kb E; destruct b as [| bo' | z' | fr' | s' | l' | o'];
    simpl in E; try discriminate.
  1-5: inversion E; subst; constructor.
  - inversion E as [El]. constructor. simpl in Ka, Kb. rewrite forallb_forall in Ka, Kb.
    clear E. revert l' El Kb.
    induction IH as [|x l Hx IH IHl]; intros [|y l'] El Kb; simpl in El;
      try discriminate; [constructor|].
    inversion El as [[Ex El']]. constructor.
    + apply Hx; [apply Ka; left; auto | apply Kb; left; auto | auto].
    + apply IHl; auto.
      * intros w Hw; apply Ka; right; auto.
      * intros w Hw; apply Kb; right; auto.
  - inversion E as [Eo]. simpl in Ka, Kb.
    apply andb_true_iff in Ka as [Na Ka], Kb as [Nb Kb].
    apply nodupb_NoDup in Na, Nb. rewrite forallb_forall in Ka, Kb.
    rewrite Forall_forall in IH.
    assert (Hm : forall k w, (exists v, In (k, v) o /\ w = norm v) <->
                             (exists v, In (k, v) o' /\ w = norm v)).
    { intros k w. rewrite <- !In_sort_norm, Eo. reflexivity. }
    constructor.
    + intros k; split; intros Hk.
      * apply in_map_iff in Hk as [[k0 v] [Ek Hin]]; simpl in Ek; subst k0.
        destruct (proj1 (Hm k (norm v)) (ex_intro _ v (conj Hin eq_refl)))
          as [v' [Hin' _]].
        eapply In_keys; eauto.
      * apply in_map_iff in Hk as [[k0 v] [Ek Hin]]; simpl in Ek; subst k0.
        destruct (proj2 (Hm k (norm v)) (ex_intro _ v (conj Hin eq_refl)))
          as [v' [Hin' _]].
        eapply In_keys; eauto.
    + intros k v1 v2 H1 H2.
      destruct (proj1 (Hm k (norm v1)) (ex_intro _ v1 (conj (lookup_In _ _ _ H1) eq_refl)))
        as [v' [Hin' Ev']].
      rewrite (In_lookup _ _ _ Nb Hin') in H2. inversion H2; subst v'.
      apply (IH (k, v1) (lookup_In _ _ _ H1));
        [apply (Ka _ (lookup_In _ _ _ H1)) | apply (Kb _ Hin') | auto].
Qed.

(** The canonical key of a well-formed value is a complete invariant of
    structural equality. *)
Lemma normalize_site_eq_iff a b :
  wf_json a = true -> wf_json b = true ->
  normalize_site a = normalize_site b <-> jeq a b.
Proof.
  unfold wf_json, normalize_site. intros Ha Hb.
  apply andb_true_iff in Ha as [Ta Ka], Hb as [Tb Kb].
  rewrite !dumps_sort_keys_norm. split; intros H.
  - apply norm_jeq; auto.
    destruct (dumps_inj (norm a) (norm b) [] [])
      as [H' _]; auto using tokens_ok_norm; try exact I.
    rewrite !app_nil_r; exact H.
  - rewrite (jeq_norm a b Ka Kb H). reflexivity.
Qed.

(** C1: for any two JSON values [a] and [b] as [json.loads] builds them,
    [normalize_site a = normalize_site b] holds if and only if [a] and
    [b] are structurally equal: same keys and pairwise equal values at
    every level of nesting (key order ignored), arrays equal element by
    element in order, scalars equal. *)
Theorem normalize_site_structural a b :
  wf_json a = true -> wf_json b = true ->
  (normalize_site a = normalize_site b <-> jeq a b).
Proof. apply normalize_site_eq_iff. Qed.

Lemma normalize_site_structural_witness :
  let a := JObj [(py "b", JFloat (py "1.5")); (py "a", JArr [JBool true; JStr (py "x")])] in
  let b := JObj [(py "a", JArr [JBool true; JStr (py "x")]); (py "b", JFloat (py "1.5"))] in
  wf_json a = true /\ wf_json b = true /\
  (normalize_site a = normalize_site b <-> jeq a b).
Proof.
  intros a b. split; [reflexivity|]. split; [reflexivity|].
  apply normalize_site_structural; reflexivity.
Defined.

(** ** The merge accumulator *)

Lemma existsb_pystr_In k l : existsb (pystr_eqb k) l = true <-> In k l.
Proof.
  rewrite existsb_exists; split.
  - intros [x [Hx E]]; apply pystr_eqb_eq in E; subst; exact Hx.
  - intros H; exists k; split; [exact H | apply pystr_eqb_refl].
Qed.

Lemma NoDup_snoc {A} (l : list A) a : NoDup l -> ~ In a l -> NoDup (l ++ [a]).
Proof.
  intros Hl Ha; apply (Permutation_NoDup (l := a :: l)).
  - apply Permutation_cons_append.
  - constructor; assumption.
Qed.

Lemma NoDup_map_inj {A B} (f : A -> B) l x y :
  NoDup (map f l) -> In x l -> In y l -> f x = f y -> x = y.
Proof.
  induction l as [|a l IH]; simpl; [tauto|].
  intros Hn Hx Hy E; inversion Hn as [|? ? Ha Hn']; subst.
  destruct Hx as [<-|Hx], Hy as [<-|Hy]; auto.
  - exfalso; apply Ha; rewrite E; apply in_map; exact Hy.
  - exfalso; apply Ha; rewrite <- E; apply in_map; exact Hx.
Qed.

Lemma same_keys_snoc p m x :
  same_keys p m -> same_keys (p ++ [x]) (m ++ [x]).
Proof.
  unfold same_keys; intros H k; rewrite !map_app, !in_app_iff, H; tauto.
Qed.

Lemma same_keys_snoc_seen p m x :
  same_keys p m -> In (normalize_site x) (map normalize_site m) ->
  same_keys (p ++ [x]) m.
Proof.
  unfold same_keys; intros H Hx k; rewrite map_app, in_app_iff, H; simpl.
  split; [intros [Hk|[<-|[]]]; auto | auto].
Qed.

Lemma first_seen_app p l1 l2 o1 o2 :
  first_seen p l1 o1 -> first_seen (p ++ l1) l2 o2 -> first_seen p (l1 ++ l2) (o1 ++ o2).
Proof.
  intros H; revert o2; induction H as [p|p x r out Hn H IH|p x r out Hy H IH];
    intros o2 H2; simpl.
  - rewrite app_nil_r in H2; exact H2.
  - apply fs_keep; [exact Hn|]. apply IH; rewrite <- app_assoc; exact H2.
  - apply fs_drop; [exact Hy|]. apply IH; rewrite <- app_assoc; exact H2.
Qed.

Lemma add_sites_first_seen l : forall p m,
  wfs p -> wfs m -> wfs l -> same_keys p m -> NoDup (map normalize_site m) ->
  exists out,
    add_sites l (m, map normalize_site m) = (m ++ out, map normalize_site (m ++ out)) /\
    first_seen p l out /\ wfs (m ++ out) /\ same_keys (p ++ l) (m ++ out) /\
    NoDup (map normalize_site (m ++ out)).
Proof.
  unfold wfs; induction l as [|x r IH]; intros p m Wp Wm Wl Hk Hn.
  - exists []; rewrite !app_nil_r; split; [reflexivity|]; repeat_conj; auto using fs_nil.
  - inversion Wl as [|? ? Wx Wr]; subst.
    unfold add_sites; simpl fold_left.
    destruct (existsb (pystr_eqb (normalize_site x)) (map normalize_site m)) eqn:E.
    + apply existsb_pystr_In in E.
      destruct (IH (p ++ [x]) m) as [out (Ho & Hf & Hw & Hk' & Hn')];
        [apply Forall_app; auto | auto | auto | apply same_keys_snoc_seen; auto | auto |].
      exists out; repeat_conj; auto.
      * apply fs_drop; [|exact Hf].
        apply Hk, in_map_iff in E; destruct E as [y [Ey Hy]].
        exists y; split; [exact Hy|].
        apply normalize_site_eq_iff; auto.
        rewrite Forall_forall in Wp; apply Wp; exact Hy.
      * rewrite <- app_assoc in Hk'; exact Hk'.
    + assert (Hx : ~ In (normalize_site x) (map normalize_site m)).
      { intros Hi; apply existsb_pystr_In in Hi; congruence. }
      destruct (IH (p ++ [x]) (m ++ [x])) as [out (Ho & Hf & Hw & Hk' & Hn')];
        [apply Forall_app; auto | apply Forall_app; auto | auto
        | apply same_keys_snoc; auto | rewrite map_app; apply NoDup_snoc; auto |].
      exists (x :: out).
      replace (m ++ x :: out) with ((m ++ [x]) ++ out) by (rewrite <- app_assoc; reflexivity).
      repeat_conj; auto.
      * rewrite <- Ho, map_app; reflexivity.
      * apply fs_keep; [|exact Hf].
        intros y Hy Hj; apply Hx, Hk.
        apply normalize_site_eq_iff in Hj;
          [| auto | rewrite Forall_forall in Wp; apply Wp; exact Hy].
        rewrite Hj; apply in_map; exact Hy.
      * rewrite <- app_assoc in Hk'; exact Hk'.
Qed.

Lemma merge_fold_first_seen Ls : forall p m,
  wfs p -> wfs m -> Forall wfs Ls -> same_keys p m -> NoDup (map normalize_site m) ->
  exists out,
    fold_left (fun acc l => add_sites l acc) Ls (m, map normalize_site m)
      = (m ++ out, map normalize_site (m ++ out)) /\
    first_seen p (List.concat Ls) out /\ wfs (m ++ out) /\
    same_keys (p ++ List.concat Ls) (m ++ out) /\ NoDup (map normalize_site (m ++ out)).
Proof.
  unfold wfs; induction Ls as [|l Ls IH]; intros p m Wp Wm WL Hk Hn; simpl.
  - exists []; rewrite !app_nil_r; split; [reflexivity|]; repeat_conj; auto using fs_nil.
  - inversion WL as [|? ? Wl WLs]; subst.
    destruct (add_sites_first_seen l p m) as [o1 (H1 & F1 & W1 & K1 & N1)]; auto.
    rewrite H1.
    destruct (IH (p ++ l) (m ++ o1)) as [o2 (H2 & F2 & W2 & K2 & N2)];
      [apply Forall_app; auto | auto | auto | auto | auto |].
    exists (o1 ++ o2); rewrite app_assoc; repeat_conj; auto.
    + apply first_seen_app; assumption.
    + rewrite app_assoc; exact K2.
Qed.

(** C2: the merged list keeps, in input order (the URLs in order, each
    URL's array in its own order), exactly the entries no earlier entry
    is structurally equal to; no two of its entries share a
    [normalize_site] key; and every input entry has exactly one
    structurally equal copy in it, the first occurrence. *)
Theorem merge_lists_first_seen Ls :
  Forall (Forall (fun x => wf_json x = true)) Ls ->
  first_seen [] (List.concat Ls) (merge_lists Ls) /\
  NoDup (map normalize_site (merge_lists Ls)) /\
  (forall x, In x (List.concat Ls) ->
     exists y, In y (merge_lists Ls) /\ jeq x y /\
       forall y', In y' (merge_lists Ls) -> jeq x y' -> y' = y).
Proof.
  intros WL.
  destruct (merge_fold_first_seen Ls [] []) as [out (Ho & Hf & Hw & Hk & Hn)];
    [constructor | constructor | exact WL | intros k; tauto | constructor |].
  unfold merge_lists; simpl in Ho; rewrite Ho; simpl fst; simpl in Hw, Hk, Hn.
  repeat_conj; [exact Hf | exact Hn |].
  intros x Hx.
  assert (Wx : wf_json x = true).
  { apply in_concat in Hx; destruct Hx as [l [Hl Hx]].
    rewrite Forall_forall in WL; specialize (WL l Hl).
    rewrite Forall_forall in WL; exact (WL x Hx). }
  assert (Wo : forall y, In y out -> wf_json y = true)
    by (unfold wfs in Hw; rewrite Forall_forall in Hw; exact Hw).
  destruct (proj1 (in_map_iff _ _ _) (proj1 (Hk (normalize_site x)) (in_map _ _ _ Hx)))
    as [y [Ey Hy]].
  exists y; repeat_conj; [exact Hy | apply normalize_site_eq_iff; auto |].
  intros y' Hy' Hj.
  apply normalize_site_eq_iff in Hj; [|exact Wx | auto].
  apply (NoDup_map_inj normalize_site out); auto; congruence.
Qed.

Lemma merge_lists_first_seen_witness :
  let s1 := JObj [(py "a", JInt 1); (py "b", JArr [JInt 2])] in
  let s2 := JObj [(py "b", JArr [JInt 2]); (py "a", JInt 1)] in
  let Ls := [[s1; JStr (py "x")]; [s2; JInt 3; JStr (py "x")]] in
  merge_lists Ls = [s1; JStr (py "x"); JInt 3] /\
  Forall (Forall (fun x => wf_json x = true)) Ls /\
  (first_seen [] (List.concat Ls) (merge_lists Ls) /\
   NoDup (map normalize_site (merge_lists Ls)) /\
   (forall x, In x (List.concat Ls) ->
      exists y, In y (merge_lists Ls) /\ jeq x y /\
        forall y', In y' (merge_lists Ls) -> jeq x y' -> y' = y)).
Proof.
  intros s1 s2 Ls.
  assert (W : Forall (Forall (fun x => wf_json x = true)) Ls)
    by (repeat constructor).
  split; [vm_compute; reflexivity|]. split; [exact W|].
  apply merge_lists_first_seen; exact W.
Defined.

(** ** The extractor *)

(** C3: the strategies of [extract_sites_from_text] in order, on the two
    texts of the specification.  [{"sites": [1,2]}] parses as a whole and
    its [sites] array is returned by that first step.  For
    [prefix garbage "sites": [1, 2,] suffix] the whole parse fails, the
    regular expression captures [[1, 2,]], the parse of the capture
    fails, the comma before the bracket is removed and [[1, 2]] parses,
    which is the result. *)
Theorem extract_sites_priority (fr : pystr -> pystr) :
  let t1 := pyq "{`sites`: [1,2]}" in
  let t2 := pyq "prefix garbage `sites`: [1, 2,] suffix" in
  json_loads fr t1 = Some (JObj [(py "sites", JArr [JInt 1; JInt 2])]) /\
  sites_of_parsed (json_loads fr t1) = Some [JInt 1; JInt 2] /\
  extract_sites_from_text fr t1 = [JInt 1; JInt 2] /\
  json_loads fr t2 = None /\
  sites_search t2 = Some (py "[1, 2,]") /\
  json_loads fr (py "[1, 2,]") = None /\
  strip_trailing_commas (py "[1, 2,]") = py "[1, 2]" /\
  json_loads fr (py "[1, 2]") = Some (JArr [JInt 1; JInt 2]) /\
  extract_sites_from_text fr t2 = [JInt 1; JInt 2].
Proof. vm_compute; repeat_conj; reflexivity. Qed.

(** C4: when the whole text parses as JSON to a value that is neither a
    list nor a dict whose [sites] value is a list, the result is the one
    of the regular-expression steps on the same text: nothing is returned
    early. *)
Theorem extract_sites_fall_through fr text v :
  json_loads fr text = Some v ->
  (forall l, v <> JArr l) ->
  (forall d l, v = JObj d -> lookup (py "sites") d <> Some (JArr l)) ->
  extract_sites_from_text fr text = extract_sites_by_regex fr text.
Proof.
  intros Hp Ha Ho; unfold extract_sites_from_text; rewrite Hp.
  destruct v as [| | | | |l|d]; simpl; auto.
  - exfalso; exact (Ha l eq_refl).
  - specialize (Ho d); destruct (lookup (py "sites") d) as [[| | | | |l|]|]; auto.
    exfalso; exact (Ho l eq_refl eq_refl).
Qed.

Lemma extract_sites_fall_through_witness :
  let fr := fun s : pystr => s in
  let text := pyq "{`sites`: 5, `other`: {`sites`: [7]}}" in
  let v := JObj [(py "sites", JInt 5); (py "other", JObj [(py "sites", JArr [JInt 7])])] in
  json_loads fr text = Some v /\
  extract_sites_from_text fr text = extract_sites_by_regex fr text /\
  extract_sites_by_regex fr text = [JInt 7].
Proof.
  intros fr text v.
  split; [vm_compute; reflexivity|]. split; [|vm_compute; reflexivity].
  apply (extract_sites_fall_through fr text v).
  - vm_compute; reflexivity.
  - intros l; discriminate.
  - intros d l E; injection E as <-; vm_compute; discriminate.
Defined.

(** C5: [extract_sites_from_text] is a total function to lists of JSON
    values: every exception of [json.loads] is caught, and the regular
    expression steps cannot fail.  A text that parses as a bare array
    yields that array; a text that does not parse and has no match of
    [SITES_REGEX] yields the empty list. *)
Theorem extract_sites_total fr text :
  (forall l, json_loads fr text = Some (JArr l) -> extract_sites_from_text fr text = l) /\
  (json_loads fr text = None -> sites_search text = None ->
   extract_sites_from_text fr text = []) /\
  extract_sites_from_text fr (pyq "[ {`a`:1} ]") = [JObj [(py "a", JInt 1)]] /\
  extract_sites_from_text fr (py "no json here, no sites either") = [].
Proof.
  repeat_conj.
  - intros l H; unfold extract_sites_from_text; rewrite H; reflexivity.
  - intros H1 H2; unfold extract_sites_from_text, extract_sites_by_regex;
      rewrite H1, H2; reflexivity.
  - vm_compute; reflexivity.
  - vm_compute; reflexivity.
Qed.

Lemma extract_sites_total_witness :
  let fr := fun s : pystr => s in
  extract_sites_from_text fr (pyq "[ {`a`:1} ]") = [JObj [(py "a", JInt 1)]] /\
  extract_sites_from_text fr (py "plain text") = [].
Proof.
  intros fr; split.
  - apply (proj1 (extract_sites_total fr (pyq "[ {`a`:1} ]"))); vm_compute; reflexivity.
  - apply (proj1 (proj2 (extract_sites_total fr (py "plain text"))));
      vm_compute; reflexivity.
Defined.

(** ** Index resolution *)

Lemma entry_urls_first_truthy_eq e : entry_urls e = entry_urls_first_truthy e.
Proof.
  destruct e as [| | | | | |d]; try reflexivity.
  unfold entry_urls, entry_urls_first_truthy, py_or, get_or_none.
  remember (py "url") as k1; remember (py "Url") as k2; remember (py "link") as k3.
  destruct (lookup k1 d) eqn:E1; destruct (lookup k2 d) eqn:E2;
    destruct (lookup k3 d) eqn:E3;
  repeat (simpl; match goal with
    | H : truthy ?v = _ |- context [truthy ?v] => rewrite H
    | H : lookup ?k d = _ |- context [lookup ?k d] => rewrite H
    | |- context [truthy ?v] => is_var v; let T := fresh "T" in destruct (truthy v) eqn:T
    end); reflexivity.
Qed.

(** C6: for an index dict whose [urls] value is a list, a string entry is
    taken as it is, and a dict entry yields the first truthy value (not
    null, false, zero, an empty string, list or dict) among its [url],
    [Url] and [link] values, or nothing; the example of the
    specification resolves to its three URLs in order. *)
Theorem resolve_urls_entries :
  (forall d l, lookup (py "urls") d = Some (JArr l) ->
     resolve_urls (JObj d) = flat_map entry_urls_first_truthy l) /\
  resolve_urls
    (JObj [(py "urls", JArr [JStr (py "http://x/1"); JObj [(py "url", JStr (py "http://x/2"))];
                              JObj [(py "link", JStr (py "http://x/3"))];
                              JObj [(py "nope", JStr (py "z"))]])])
  = [JStr (py "http://x/1"); JStr (py "http://x/2"); JStr (py "http://x/3")].
Proof.
  split; [|vm_compute; reflexivity].
  intros d l H; unfold resolve_urls; rewrite H.
  apply flat_map_ext; apply entry_urls_first_truthy_eq.
Qed.

Lemma resolve_urls_entries_witness :
  let d := [(py "urls", JArr [JObj [(py "url", JStr []); (py "Url", JInt 0);
                                    (py "link", JStr (py "http://x/3"))]; JStr []])] in
  resolve_urls (JObj d) = [JStr (py "http://x/3"); JStr []].
Proof.
  intros d.
  rewrite (proj1 resolve_urls_entries d
             [JObj [(py "url", JStr []); (py "Url", JInt 0);
                    (py "link", JStr (py "http://x/3"))]; JStr []]);
    vm_compute; reflexivity.
Defined.

(** C6, against the words of the specification: with an empty [url] the
    first present value is the empty string, while the code skips to the
    [link] value. *)
Lemma resolve_urls_first_present_counterexample :
  let entries := [JObj [(py "url", JStr []); (py "link", JStr (py "http://x/3"))]] in
  resolve_urls (JObj [(py "urls", JArr entries)]) = [JStr (py "http://x/3")] /\
  flat_map entry_urls_first_present entries = [JStr []] /\
  resolve_urls (JObj [(py "urls", JArr entries)]) <> flat_map entry_urls_first_present entries.
Proof.
  intros entries; vm_compute; repeat_conj; [reflexivity | reflexivity | discriminate].
Qed.

Lemma starts_with_app p t r : starts_with p t = Some r <-> t = p ++ r.
Proof.
  unfold starts_with; split.
  - destruct (pystr_eqb (firstn (List.length p) t) p) eqn:E; [|discriminate].
    intros H; injection H as <-; apply pystr_eqb_eq in E.
    rewrite <- (firstn_skipn (List.length p) t) at 1; rewrite E; reflexivity.
  - intros ->.
    rewrite firstn_app, Nat.sub_diag, firstn_O, app_nil_r, firstn_all.
    rewrite pystr_eqb_refl, skipn_app, Nat.sub_diag, skipn_O, skipn_all; reflexivity.
Qed.

Lemma take_url_chars_spec t u r :
  take_url_chars t = (u, r) ->
  t = u ++ r /\ Forall (fun c => url_char c = true) u /\
  (forall c r', r = c :: r' -> url_char c = false).
Proof.
  revert u r; induction t as [|c t IH]; simpl; intros u r H.
  - injection H as <- <-; repeat_conj; [reflexivity | constructor | discriminate].
  - destruct (url_char c) eqn:Ec.
    + destruct (take_url_chars t) as [u' r'] eqn:E; injection H as <- <-.
      destruct (IH u' r' eq_refl) as (-> & Hf & Hh); repeat_conj; auto.
    + injection H as <- <-; repeat_conj; [reflexivity | constructor |].
      intros c' r' E; injection E as <- <-; exact Ec.
Qed.

Lemma take_url_chars_nonempty c t :
  url_char c = true -> fst (take_url_chars (c :: t)) <> [].
Proof.
  simpl; intros ->; destruct (take_url_chars t); discriminate.
Qed.

Lemma url_at_some t u r :
  url_at t = Some (u, r) ->
  t = u ++ r /\ url_shape u /\ (forall c r', r = c :: r' -> url_char c = false).
Proof.
  unfold url_at.
  destruct (starts_with (py "http") t) as [r0|] eqn:E0; [|discriminate].
  apply starts_with_app in E0; subst t.
  destruct (match r0 with
            | [] => ([], [])
            | c :: r' => if (c =? 115)%N then ([c], r') else ([], r0)
            end) as [s r1] eqn:Es.
  assert (Hs : (s = [] \/ s = [115%N]) /\ r0 = s ++ r1).
  { destruct r0 as [|c r']; [injection Es as <- <-; auto|].
    destruct (c =? 115)%N eqn:Ec; injection Es as <- <-; auto.
    apply N.eqb_eq in Ec; subst; auto. }
  destruct Hs as [Hs ->].
  destruct (starts_with (py "://") r1) as [r2|] eqn:E1; [|discriminate].
  apply starts_with_app in E1; subst r1.
  destruct (take_url_chars r2) as [v r3] eqn:Ev.
  destruct (take_url_chars_spec _ _ _ Ev) as (-> & Hv & Hh).
  destruct v as [|c v]; [discriminate|].
  intros H; injection H as <- <-.
  repeat_conj.
  - simpl; rewrite <- ?app_assoc; reflexivity.
  - exists s, (c :: v); repeat_conj; auto; discriminate.
  - exact Hh.
Qed.

Lemma url_at_none t : url_at t = None -> no_url_at t.
Proof.
  intros H u r -> (s & v & Hs & Hv & Hf & ->).
  destruct v as [|c v]; [contradiction|].
  inversion Hf as [|? ? Hc Hf']; subst.
  revert H; rewrite <- !app_assoc.
  destruct Hs as [-> | ->]; cbn -[url_char]; rewrite Hc;
    destruct (take_url_chars (v ++ r)); discriminate.
Qed.

Lemma no_url_at_nil : no_url_at [].
Proof.
  intros u r E (s & v & _ & _ & _ & ->).
  destruct s; simpl in E; discriminate.
Qed.

Lemma url_shape_nonempty u : url_shape u -> u <> [].
Proof. intros (s & v & _ & _ & _ & ->); discriminate. Qed.

Lemma url_matches_cons c t us :
  no_url_at (c :: t) -> url_matches us t -> url_matches us (c :: t).
Proof.
  intros H0 H; inversion H as [t' Hn| pre u rest us' Hg Hu Hh Hm]; subst.
  - apply um_none; intros [|i]; simpl; auto.
  - apply (um_next (c :: pre)); auto.
    intros [|i] Hi; simpl; auto.
    apply Hg; simpl in Hi; lia.
Qed.

Lemma url_finditer_fuel_matches n t :
  List.length t <= n -> url_matches (url_finditer_fuel n t) t.
Proof.
  revert t; induction n as [|n IH]; intros t Hl.
  - destruct t; [|simpl in Hl; lia].
    apply um_none; intros i; rewrite skipn_nil; apply no_url_at_nil.
  - destruct t as [|c r]; simpl.
    + apply um_none; intros i; rewrite skipn_nil; apply no_url_at_nil.
    + destruct (url_at (c :: r)) as [[u rest]|] eqn:E.
      * destruct (url_at_some _ _ _ E) as (Ht & Hu & Hh).
        rewrite Ht.
        apply (um_next [] u rest); auto.
        -- intros i Hi; simpl in Hi; lia.
        -- apply IH.
           destruct u; [exact (False_rect _ (url_shape_nonempty _ Hu eq_refl))|].
           rewrite Ht in Hl; simpl in Hl; rewrite length_app in Hl; lia.
      * apply url_matches_cons; [apply url_at_none; exact E|].
        apply IH; simpl in Hl; lia.
Qed.

Lemma url_finditer_matches t : url_matches (url_finditer t) t.
Proof. apply url_finditer_fuel_matches; lia. Qed.

Lemma url_matches_shape us t : url_matches us t -> Forall url_shape us.
Proof. induction 1; constructor; auto. Qed.

(** ** The merge loop *)

Lemma gets_app a b : gets (a ++ b) = gets a ++ gets b.
Proof. unfold gets; apply flat_map_app. Qed.

Lemma fetch_and_extract_events fr reply u :
  snd (fetch_and_extract fr reply u) = if truthy u then [EGet u] else [].
Proof.
  unfold fetch_and_extract; destruct (truthy u); simpl; [|reflexivity].
  destruct (reply u) as [|st rj tx]; [reflexivity|].
  destruct (st =? 200)%Z; reflexivity.
Qed.

Lemma merge_loop_step fr net max u us st :
  (max = 0 \/ processed st < max)%Z ->
  merge_loop fr net max (u :: us) st =
  let '(sites, evs) := fetch_and_extract fr (net (List.length (gets (trace st)))) u in
  let '(m, sn) := add_sites sites (merged st, seen st) in
  merge_loop fr net max us (mkState m sn (processed st + 1) (trace st ++ evs ++ [ESleep])).
Proof.
  intros H; simpl.
  replace (negb (max =? 0)%Z && (max <=? processed st)%Z) with false; [reflexivity|].
  destruct H as [->|H]; [reflexivity|].
  symmetry; apply andb_false_iff; right; apply Z.leb_gt; exact H.
Qed.

Lemma merge_loop_count fr net max us : forall st p,
  processed st = Z.of_nat p ->
  let k := if (max =? 0)%Z then List.length us
           else Nat.min (Z.to_nat max - p) (List.length us) in
  processed (merge_loop fr net max us st) = Z.of_nat (p + k) /\
  gets (trace (merge_loop fr net max us st)) = gets (trace st) ++ filter truthy (firstn k us).
Proof.
  induction us as [|u us IH]; intros st p Hp k.
  - subst k; destruct (max =? 0)%Z; simpl; rewrite ?Nat.min_0_r, ?Nat.add_0_r, ?app_nil_r;
      split; auto.
  - assert (Hstep : forall k', k = S k' ->
              (max = 0 \/ processed st < max)%Z ->
              (if (max =? 0)%Z then List.length us
               else Nat.min (Z.to_nat max - S p) (List.length us)) = k' ->
              processed (merge_loop fr net max (u :: us) st) = Z.of_nat (p + k) /\
              gets (trace (merge_loop fr net max (u :: us) st))
                = gets (trace st) ++ filter truthy (firstn k (u :: us))).
    { intros k' Ek Hc Ek'. rewrite (merge_loop_step fr net max u us st Hc).
      pose proof (fetch_and_extract_events fr (net (List.length (gets (trace st)))) u) as Ev.
      destruct (fetch_and_extract fr (net (List.length (gets (trace st)))) u) as [sites evs].
      simpl in Ev; subst evs.
      destruct (add_sites sites (merged st, seen st)) as [m sn].
      destruct (IH (mkState m sn (processed st + 1) (trace st ++ (if truthy u then [EGet u] else []) ++ [ESleep])) (S p))
        as [IH1 IH2]; [simpl; lia|].
      rewrite Ek' in IH1, IH2.
      rewrite IH1, IH2, Ek; simpl.
      rewrite !gets_app; simpl.
      split; [f_equal; lia|].
      destruct (truthy u); simpl; rewrite <- !app_assoc; reflexivity. }
    subst k; destruct (max =? 0)%Z eqn:Em.
    + apply Z.eqb_eq in Em; subst max.
      apply (Hstep (List.length us)); simpl; auto.
    + apply Z.eqb_neq in Em.
      destruct (Z.leb max (Z.of_nat p)) eqn:Hl.
      * apply Z.leb_le in Hl.
        assert (E0 : Z.to_nat max - p = 0) by lia.
        rewrite E0; simpl.
        replace (negb (max =? 0)%Z && (max <=? processed st)%Z) with true
          by (rewrite Hp; apply Z.eqb_neq in Em; rewrite Em; simpl; symmetry;
              apply Z.leb_le; exact Hl).
        rewrite Nat.add_0_r, app_nil_r; split; auto.
      * apply Z.leb_gt in Hl.
        assert (E1 : Z.to_nat max - p = S (Z.to_nat max - S p)) by lia.
        apply (Hstep (Nat.min (Z.to_nat max - S p) (List.length us))).
        -- rewrite E1; reflexivity.
        -- right; rewrite Hp; exact Hl.
        -- reflexivity.
Qed.

Lemma resolve_urls_fallback_eq data :
  (forall d l, data = JObj d -> lookup (py "urls") d <> Some (JArr l)) ->
  resolve_urls data = map JStr (url_finditer (dumps true false data)).
Proof.
  intros H; unfold resolve_urls; destruct data as [| | | | | |d]; try reflexivity.
  specialize (H d); destruct (lookup (py "urls") d) as [[| | | | |l|]|]; try reflexivity.
  exfalso; exact (H l eq_refl eq_refl).
Qed.

(** C7: when [data] is not a dict with a list under [urls], the URLs are
    the matches of the URL pattern in [json.dumps(data)], in order: each
    the leftmost substring of the URL shape, as long as it goes, the
    search resuming after it.  Nothing is deduplicated, and with the
    default [--max 0] every one of them, repeated ones included, is
    requested in that order. *)
Theorem resolve_urls_fallback fr net data :
  (forall d l, data = JObj d -> lookup (py "urls") d <> Some (JArr l)) ->
  resolve_urls data = map JStr (url_finditer (dumps true false data)) /\
  url_matches (url_finditer (dumps true false data)) (dumps true false data) /\
  gets (trace (merge_sites fr net 0 (resolve_urls data))) = resolve_urls data.
Proof.
  intros H; pose proof (resolve_urls_fallback_eq data H) as E.
  repeat_conj; [exact E | apply url_finditer_matches |].
  unfold merge_sites.
  destruct (merge_loop_count fr net 0 (resolve_urls data) init_state 0 eq_refl) as [_ G].
  simpl in G; rewrite G, firstn_all.
  rewrite E; pose proof (url_matches_shape _ _ (url_finditer_matches (dumps true false data))) as F.
  clear E G H.
  induction F as [|u us Hu F IHF]; [reflexivity|].
  simpl; destruct u; [exact (False_rect _ (url_shape_nonempty _ Hu eq_refl))|].
  simpl; f_equal; exact IHF.
Qed.

Lemma resolve_urls_fallback_witness :
  let fr := fun s : pystr => s in
  let net := fun (_ : nat) (_ : JVal) => RequestFailed in
  let data := JObj [(py "a", JStr (py "http://x/1")); (py "b", JArr [JStr (py "http://x/1")])] in
  resolve_urls data = [JStr (py "http://x/1"); JStr (py "http://x/1")] /\
  gets (trace (merge_sites fr net 0 (resolve_urls data)))
    = [JStr (py "http://x/1"); JStr (py "http://x/1")].
Proof.
  intros fr net data.
  assert (H : forall d l, data = JObj d -> lookup (py "urls") d <> Some (JArr l)).
  { intros d l E; injection E as <-; vm_compute; discriminate. }
  destruct (resolve_urls_fallback fr net data H) as (E & _ & G).
  assert (R : resolve_urls data = [JStr (py "http://x/1"); JStr (py "http://x/1")])
    by (vm_compute; reflexivity).
  split; [exact R|]. rewrite G; exact R.
Defined.

(** C8: the loop processes the first [n] URLs, [n] the value of [--max]
    ([0] meaning all of them, and never more than there are), and issues
    one GET for each of those that is not empty (not falsy), in order, and
    none for the URLs after them, whatever the URLs yield. *)
Theorem merge_sites_max fr net max urls :
  let n := if (max =? 0)%Z then List.length urls
           else Nat.min (Z.to_nat max) (List.length urls) in
  processed (merge_sites fr net max urls) = Z.of_nat n /\
  gets (trace (merge_sites fr net max urls)) = filter truthy (firstn n urls).
Proof.
  intros n; unfold merge_sites.
  destruct (merge_loop_count fr net max urls init_state 0 eq_refl) as [P G].
  rewrite Nat.sub_0_r in P, G; exact (conj P G).
Qed.

(** C8, against the words of the specification: with [--max 2] and three
    URLs, the first one empty, two URLs are processed but one GET is
    made. *)
Lemma merge_sites_max_counterexample :
  let fr := fun s : pystr => s in
  let net := fun (_ : nat) (_ : JVal) => Response 200 (Some (JArr [JInt 1; JInt 2])) [] in
  let urls := [JStr []; JStr (py "http://a"); JStr (py "http://b")] in
  processed (merge_sites fr net 2 urls) = 2%Z /\
  gets (trace (merge_sites fr net 2 urls)) = [JStr (py "http://a")] /\
  List.length (gets (trace (merge_sites fr net 2 urls))) <> 2.
Proof. intros fr net urls; vm_compute; repeat_conj; [reflexivity | reflexivity | discriminate]. Qed.

(** C9: a URL that is requested and fails (an exception of
    [requests.get], a status other than 200, or a reply from which no
    strategy extracts a site) adds nothing: the loop goes on with the
    same merged list and seen keys, the URL counted and the request and
    the delay recorded. *)
Theorem merge_loop_failed_url fr net max u us st :
  truthy u = true ->
  (max = 0 \/ processed st < max)%Z ->
  (net (List.length (gets (trace st))) u = RequestFailed \/
   (exists status rj text, net (List.length (gets (trace st))) u = Response status rj text /\
      status <> 200%Z) \/
   (exists rj text, net (List.length (gets (trace st))) u = Response 200 rj text /\
      sites_of_response fr rj text = [])) ->
  fst (fetch_and_extract fr (net (List.length (gets (trace st)))) u) = [] /\
  merge_loop fr net max (u :: us) st =
  merge_loop fr net max us
    (mkState (merged st) (seen st) (processed st + 1) (trace st ++ [EGet u; ESleep])).
Proof.
  intros Ht Hc Hf.
  assert (F : fetch_and_extract fr (net (List.length (gets (trace st)))) u = ([], [EGet u])).
  { unfold fetch_and_extract; rewrite Ht; simpl.
    destruct Hf as [-> | [(s & rj & tx & -> & Hs) | (rj & tx & -> & Hs)]].
    - reflexivity.
    - apply Z.eqb_neq in Hs; rewrite Hs; reflexivity.
    - rewrite Hs; reflexivity. }
  split; [rewrite F; reflexivity|].
  rewrite (merge_loop_step fr net max u us st Hc), F.
  destruct st; reflexivity.
Qed.

Lemma merge_loop_failed_url_witness :
  let fr := fun s : pystr => s in
  let net := fun (_ : nat) (_ : JVal) => Response 404 None (py "not found") in
  let u := JStr (py "http://a") in
  let us := [JStr (py "http://b")] in
  fst (fetch_and_extract fr (net 0) u) = [] /\
  merge_loop fr net 0 (u :: us) init_state =
  merge_loop fr net 0 us (mkState [] [] 1 [EGet u; ESleep]).
Proof.
  intros fr net u us.
  apply (merge_loop_failed_url fr net 0 u us init_state).
  - reflexivity.
  - left; reflexivity.
  - right; left; exists 404%Z, None, (py "not found"); split; [reflexivity | discriminate].
Defined.

(** C10: an empty URL, which an empty string entry of [urls] gives, makes
    no request; it counts as processed, and the delay follows it. *)
Theorem merge_loop_empty_url fr net max us st :
  (max = 0 \/ processed st < max)%Z ->
  resolve_urls (JObj [(py "urls", JArr [JStr []])]) = [JStr []] /\
  fetch_and_extract fr (net (List.length (gets (trace st)))) (JStr []) = ([], []) /\
  merge_loop fr net max (JStr [] :: us) st =
  merge_loop fr net max us
    (mkState (merged st) (seen st) (processed st + 1) (trace st ++ [ESleep])).
Proof.
  intros Hc; repeat_conj; [vm_compute; reflexivity | reflexivity |].
  rewrite (merge_loop_step fr net max (JStr []) us st Hc); simpl.
  destruct st; reflexivity.
Qed.

Lemma merge_loop_empty_url_witness :
  let fr := fun s : pystr => s in
  let net := fun (_ : nat) (_ : JVal) => RequestFailed in
  let us := [JStr (py "http://b")] in
  merge_loop fr net 1 (JStr [] :: us) init_state = mkState [] [] 1 [ESleep].
Proof.
  intros fr net us.
  rewrite (proj2 (proj2 (merge_loop_empty_url fr net 1 us init_state (or_intror eq_refl)))).
  vm_compute; reflexivity.
Defined.

(** ** Strings read back *)

Lemma hex_value_hex_digit d : (d < 16)%N -> hex_value (hex_digit d) = Some d.
Proof.
  intros H. unfold hex_digit, hex_value, is_digit.
  destruct (N.ltb_spec d 10).
  - replace ((48 <=? 48 + d)%N && (48 + d <=? 57)%N) with true
      by (symmetry; apply andb_true_iff; split; apply N.leb_le; lia).
    f_equal; lia.
  - replace ((48 <=? 87 + d)%N && (87 + d <=? 57)%N) with false
      by (symmetry; apply andb_false_iff; right; apply N.leb_gt; lia).
    replace ((97 <=? 87 + d)%N && (87 + d <=? 102)%N) with true
      by (symmetry; apply andb_true_iff; split; apply N.leb_le; lia).
    f_equal; lia.
Qed.

Lemma decode_u4_u_escape4 n r : (n < 65536)%N ->
  decode_u4 (skipn 2 (u_escape4 n) ++ r) = Some (n, r).
Proof.
  intros H. unfold u_escape4; simpl skipn; simpl app; unfold decode_u4.
  rewrite !hex_value_hex_digit by (apply N.mod_lt; lia).
  f_equal; f_equal.
  replace (n / 256)%N with (n / 16 / 16)%N by (rewrite N.Div0.div_div; auto; lia).
  replace (n / 4096)%N with (n / 16 / 16 / 16)%N by (rewrite !N.Div0.div_div; auto; lia).
  set (q1 := (n / 16)%N). set (q2 := (q1 / 16)%N). set (q3 := (q2 / 16)%N).
  pose proof (N.div_mod n 16 ltac:(lia)) as E1. fold q1 in E1.
  pose proof (N.div_mod q1 16 ltac:(lia)) as E2. fold q2 in E2.
  pose proof (N.div_mod q2 16 ltac:(lia)) as E3. fold q3 in E3.
  pose proof (N.mod_lt n 16 ltac:(lia)). pose proof (N.mod_lt q1 16 ltac:(lia)).
  pose proof (N.mod_lt q2 16 ltac:(lia)).
  clearbody q1 q2 q3.
  assert (q3 < 16)%N.
  { generalize dependent (n mod 16)%N; generalize dependent (q1 mod 16)%N;
    generalize dependent (q2 mod 16)%N. intros. nia. }
  rewrite (N.mod_small q3 16) by lia.
  generalize dependent (n mod 16)%N; generalize dependent (q1 mod 16)%N;
  generalize dependent (q2 mod 16)%N. intros. lia.
Qed.

Lemma scan_string_short c e X n : short_escape c = Some e ->
  scan_string (S n) (e ++ X) =
  match scan_string n X with Some (s, r) => Some (c :: s, r) | None => None end.
Proof.
  unfold short_escape; intros H.
  repeat match type of H with
  | context [(c =? ?k)%N] => destruct (N.eqb_spec c k); [subst; inversion H; subst; reflexivity|]
  end; discriminate.
Qed.

Lemma scan_string_raw c X n : (32 <= c)%N -> c <> 34%N -> c <> 92%N ->
  scan_string (S n) (c :: X) =
  match scan_string n X with Some (s, r) => Some (c :: s, r) | None => None end.
Proof.
  intros H1 H2 H3. simpl.
  rewrite (proj2 (N.eqb_neq c 34) H2), (proj2 (N.eqb_neq c 92) H3).
  replace (c <? 32)%N with false by (symmetry; apply N.ltb_ge; lia). reflexivity.
Qed.

Lemma scan_string_u c X n : (c < 65536)%N ->
  (is_high_surrogate c = false \/
   forall r3, X = 92%N :: 117%N :: r3 ->
     exists c2 r4, decode_u4 r3 = Some (c2, r4) /\ is_low_surrogate c2 = false) ->
  scan_string (S n) (u_escape4 c ++ X) =
  match scan_string n X with Some (s, r) => Some (c :: s, r) | None => None end.
Proof.
  intros Hc Hj.
  change (u_escape4 c ++ X) with (92%N :: 117%N :: (skipn 2 (u_escape4 c) ++ X)).
  cbn [scan_string N.eqb Pos.eqb].
  rewrite decode_u4_u_escape4 by exact Hc.
  destruct (is_high_surrogate c) eqn:Eh; [|reflexivity].
  destruct Hj as [Hj|Hj]; [discriminate|].
  destruct X as [|b [|u r3]]; try reflexivity.
  destruct ((b =? 92)%N && (u =? 117)%N) eqn:E; [|reflexivity].
  apply andb_true_iff in E as [E1 E2]. apply N.eqb_eq in E1, E2; subst.
  destruct (Hj r3 eq_refl) as (c2 & r4 & D & L). rewrite D, L. reflexivity.
Qed.

Lemma esc_char_ascii_pair c : (65536 <= c)%N ->
  esc_char_ascii c = u_escape4 (55296 + ((c - 65536) / 1024) mod 1024)
                     ++ u_escape4 (56320 + (c - 65536) mod 1024).
Proof.
  intros H. unfold esc_char_ascii, short_escape.
  repeat match goal with
  | |- context [(c =? ?k)%N] => replace (c =? k)%N with false by (symmetry; apply N.eqb_neq; lia)
  end.
  replace ((32 <=? c)%N && (c <=? 126)%N) with false
    by (symmetry; apply andb_false_iff; right; apply N.leb_gt; lia).
  replace (c <? 65536)%N with false by (symmetry; apply N.ltb_ge; lia).
  reflexivity.
Qed.

Lemma scan_string_pair c X n : (65536 <= c < 1114112)%N ->
  scan_string (S n) (esc_char_ascii c ++ X) =
  match scan_string n X with Some (s, r) => Some (c :: s, r) | None => None end.
Proof.
  intros Hc. rewrite esc_char_ascii_pair by lia.
  set (q := ((c - 65536) / 1024)%N). set (m := ((c - 65536) mod 1024)%N).
  assert (Hq : (q < 1024)%N) by (apply N.Div0.div_lt_upper_bound; lia).
  assert (Hm : (m < 1024)%N) by (apply N.mod_lt; lia).
  assert (Hcq : c = (65536 + 1024 * q + m)%N)
    by (pose proof (N.div_mod (c - 65536) 1024 ltac:(lia)); lia).
  rewrite (N.mod_small q 1024) by exact Hq.
  rewrite <- app_assoc.
  change (u_escape4 (55296 + q) ++ ?Y) with (92%N :: 117%N :: (skipn 2 (u_escape4 (55296 + q)) ++ Y)).
  cbn [scan_string N.eqb Pos.eqb].
  rewrite decode_u4_u_escape4 by lia.
  replace (is_high_surrogate (55296 + q)) with true
    by (symmetry; unfold is_high_surrogate; apply andb_true_iff; split; apply N.leb_le; lia).
  change (u_escape4 (56320 + m) ++ X) with (92%N :: 117%N :: (skipn 2 (u_escape4 (56320 + m)) ++ X)).
  cbn [N.eqb Pos.eqb andb].
  rewrite decode_u4_u_escape4 by lia.
  replace (is_low_surrogate (56320 + m)) with true
    by (symmetry; unfold is_low_surrogate; apply andb_true_iff; split; apply N.leb_le; lia).
  replace (65536 + (55296 + q - 55296) * 1024 + (56320 + m - 56320))%N with c by lia.
  reflexivity.
Qed.

Lemma short_escape_none_34 c : short_escape c = None -> c <> 34%N /\ c <> 92%N.
Proof.
  unfold short_escape; intros H; split; intros ->; simpl in H; discriminate.
Qed.

Lemma scan_string_esc_char s rest n : List.length s < n ->
  scan_string n (flat_map esc_char s ++ 34%N :: rest) = Some (s, rest).
Proof.
  revert n; induction s as [|c s IH]; intros [|n] Hn; simpl in Hn; try lia.
  - reflexivity.
  - simpl flat_map. rewrite <- app_assoc. unfold esc_char at 1.
    destruct (short_escape c) as [e|] eqn:Es.
    + rewrite (scan_string_short c e) by exact Es. rewrite IH by lia. reflexivity.
    + destruct (N.ltb_spec c 32).
      * rewrite scan_string_u by (try lia; left; unfold is_high_surrogate;
                                  apply andb_false_iff; left; apply N.leb_gt; lia).
        rewrite IH by lia. reflexivity.
      * apply short_escape_none_34 in Es as [E1 E2].
        simpl app. rewrite scan_string_raw by auto. rewrite IH by lia. reflexivity.
Qed.

Lemma nojoin_ascii s rest :
  Forall (fun c => (c < 1114112)%N) s ->
  (forall c2 s', s = c2 :: s' -> is_low_surrogate c2 = false) ->
  forall r3, flat_map esc_char_ascii s ++ 34%N :: rest = 92%N :: 117%N :: r3 ->
  exists c2 r4, decode_u4 r3 = Some (c2, r4) /\ is_low_surrogate c2 = false.
Proof.
  intros Hb Hl r3 E. destruct s as [|c s]; simpl in E; [inversion E|].
  specialize (Hl c s eq_refl). inversion Hb as [|? ? Hc _]; subst.
  rewrite <- app_assoc in E. set (Y := flat_map esc_char_ascii s ++ 34%N :: rest) in E.
  unfold esc_char_ascii in E.
  destruct (short_escape c) as [e|] eqn:Es.
  - unfold short_escape in Es.
    repeat match type of Es with
    | context [(c =? ?k)%N] => destruct (N.eqb_spec c k); [subst; inversion Es; subst; discriminate|]
    end; discriminate.
  - apply short_escape_none_34 in Es as [E1 E2].
    destruct ((32 <=? c)%N && (c <=? 126)%N).
    + simpl in E. inversion E; contradiction.
    + destruct (N.ltb_spec c 65536).
      * assert (E' : skipn 2 (u_escape4 c ++ Y) = r3) by (rewrite E; reflexivity).
        replace r3 with (skipn 2 (u_escape4 c) ++ Y) by (rewrite <- E'; reflexivity).
        rewrite decode_u4_u_escape4 by exact H. eauto.
      * rewrite <- app_assoc in E.
        set (h := (55296 + (c - 65536) / 1024 mod 1024)%N) in E.
        set (Z := u_escape4 (56320 + (c - 65536) mod 1024) ++ Y) in E.
        assert (E' : skipn 2 (u_escape4 h ++ Z) = r3) by (rewrite E; reflexivity).
        replace r3 with (skipn 2 (u_escape4 h) ++ Z) by (rewrite <- E'; reflexivity).
        assert (Hq : ((c - 65536) / 1024 mod 1024 < 1024)%N) by (apply N.mod_lt; lia).
        rewrite decode_u4_u_escape4 by lia.
        eexists _, _; split; [reflexivity|].
        unfold is_low_surrogate. apply andb_false_iff; left; apply N.leb_gt; lia.
Qed.

Lemma scan_string_esc_ascii s rest n : List.length s < n ->
  Forall (fun c => (c < 1114112)%N) s -> no_surrogate_pair s = true ->
  scan_string n (flat_map esc_char_ascii s ++ 34%N :: rest) = Some (s, rest).
Proof.
  revert n; induction s as [|c s IH]; intros [|n] Hn Hb Hp; simpl in Hn; try lia.
  - reflexivity.
  - inversion Hb as [|? ? Hc Hb']; subst.
    assert (Hp' : no_surrogate_pair s = true).
    { destruct s; [reflexivity|]. simpl in Hp |- *. apply andb_true_iff in Hp as [_ Hp]. exact Hp. }
    assert (Hl : is_high_surrogate c = true -> forall c2 s', s = c2 :: s' -> is_low_surrogate c2 = false).
    { intros Hh c2 s' ->. simpl in Hp. rewrite Hh in Hp. simpl in Hp.
      destruct (is_low_surrogate c2); [discriminate|reflexivity]. }
    simpl flat_map. rewrite <- app_assoc.
    destruct (N.leb_spec 65536 c).
    + rewrite scan_string_pair by lia. rewrite IH by (auto; lia). reflexivity.
    + unfold esc_char_ascii at 1.
      destruct (short_escape c) as [e|] eqn:Es.
      * rewrite (scan_string_short c e) by exact Es. rewrite IH by (auto; lia). reflexivity.
      * pose proof (short_escape_none_34 c Es) as [E1 E2].
        destruct ((32 <=? c)%N && (c <=? 126)%N) eqn:Er.
        -- apply andb_true_iff in Er as [Er _]; apply N.leb_le in Er.
           simpl app. rewrite scan_string_raw by auto. rewrite IH by (auto; lia). reflexivity.
        -- replace (c <? 65536)%N with true by (symmetry; apply N.ltb_lt; lia).
           rewrite scan_string_u.
           ++ rewrite IH by (auto; lia). reflexivity.
           ++ lia.
           ++ destruct (is_high_surrogate c) eqn:Eh; [right|left; reflexivity].
              apply nojoin_ascii; [exact Hb' | exact (Hl eq_refl)].
Qed.

(** ** Number tokens read back *)

Lemma take_digits_app ds Y :
  Forall (fun c => is_digit c = true) ds ->
  (forall c r, Y = c :: r -> is_digit c = false) ->
  take_digits (ds ++ Y) = (ds, Y).
Proof.
  intros Hd HY. induction Hd as [|c ds Hc Hd IH]; cbn [take_digits app].
  - destruct Y as [|c r]; [reflexivity|]. cbn [take_digits]. rewrite (HY c r eq_refl). reflexivity.
  - rewrite Hc, IH. reflexivity.
Qed.

Lemma scan_number_literal fr sg ip fp ex rest :
  (sg = [] \/ sg = [45%N]) ->
  (ip = [48%N] \/ exists d ds, ip = d :: ds /\ (49 <= d <= 57)%N /\
                                Forall (fun c => is_digit c = true) ds) ->
  (fp = [] \/ exists ds, fp = 46%N :: ds /\ digits1 ds) ->
  (ex = [] \/ exists e sg' ds, ex = e :: sg' ++ ds /\ (e = 101%N \/ e = 69%N) /\
                               (sg' = [] \/ sg' = [43%N] \/ sg' = [45%N]) /\ digits1 ds) ->
  (forall c r, rest = c :: r -> is_digit c = false /\ c <> 46%N /\ c <> 101%N /\ c <> 69%N) ->
  scan_number fr (sg ++ ip ++ fp ++ ex ++ rest) =
  match fp, ex with
  | [], [] => if Nat.ltb int_max_str_digits (List.length ip) then None
              else Some (JInt (match sg with [] => digits_value ip
                                            | _ => Z.opp (digits_value ip) end), rest)
  | _, _ => Some (JFloat (fr (sg ++ ip ++ fp ++ ex)), rest)
  end.
Proof.
  intros Hsg Hip Hfp Hex Hr.
  unfold digits1 in *.
  destruct Hfp as [->|(ds1 & -> & Hn1 & Hd1)];
  [|destruct ds1 as [|d1 ds1]; [contradiction|]; inversion Hd1 as [|? ? Hd1a Hd1b]; subst];
  (destruct Hex as [->|(e & sg' & ds2 & -> & He & Hsg' & Hn2 & Hd2)];
   [|destruct ds2 as [|d2 ds2]; [contradiction|]; inversion Hd2 as [|? ? Hd2a Hd2b]; subst;
     destruct He as [->| ->]; destruct Hsg' as [->|[->| ->]]]);
  (destruct Hsg as [->| ->]; destruct Hip as [->|(d & ds & -> & Hd & Hds)]);
  (destruct rest as [|c [|c' r]];
   [| destruct (Hr c [] eq_refl) as (Hc1 & Hc2 & Hc3 & Hc4)
    | destruct (Hr c (c' :: r) eq_refl) as (Hc1 & Hc2 & Hc3 & Hc4)]);
  clear Hr; unfold scan_number;
  repeat (cbn -[is_digit digits_value int_max_str_digits];
    repeat match goal with
    | H : is_digit ?x = true |- context [is_digit ?x] => rewrite H
    | H : is_digit ?x = false |- context [is_digit ?x] => rewrite H
    | |- context [(?x =? ?k)%N] =>
        is_var x; first
        [ replace (x =? k)%N with false
            by (symmetry; apply N.eqb_neq; intros ->; first [lia | discriminate])
        | replace (x =? k)%N with false
            by (symmetry; apply N.eqb_neq; intros ->; match goal with
                H : is_digit k = true |- _ => discriminate H end) ]
    | |- context [(49 <=? ?x)%N && (?x <=? 57)%N] =>
        is_var x; replace ((49 <=? x)%N && (x <=? 57)%N) with true
          by (symmetry; apply andb_true_iff; split; apply N.leb_le; lia)
    | |- context [take_digits (?ds ++ ?Y)] =>
        rewrite (take_digits_app ds Y) by
          (first [assumption | intros ? ? E; inversion E; subst; first [assumption | reflexivity]])
    | |- context [take_digits ?ds] =>
        is_var ds; rewrite <- (app_nil_r ds) at 1;
        rewrite (take_digits_app ds []) by (first [assumption | intros ? ? E; discriminate])
    end).
  all: reflexivity.
Qed.

(** ** Integer tokens *)

Lemma digits_fold_acc u acc :
  fold_left (fun acc d => (acc * 10 + Z.of_N (d - 48))%Z) (uint_chars u) (Z.pos acc)
  = Z.pos (Pos.of_uint_acc u acc).
Proof.
  revert acc; induction u; intros acc; cbn [uint_chars fold_left Pos.of_uint_acc];
    rewrite <- ?IHu; try reflexivity; f_equal; lia.
Qed.

Lemma digits_value_uint u : digits_value (uint_chars u) = Z.of_N (Pos.of_uint u).
Proof.
  unfold digits_value. induction u; cbn [uint_chars fold_left Pos.of_uint];
    try exact IHu; try reflexivity;
    change (Z.of_N (Npos ?x)) with (Z.pos x); rewrite <- digits_fold_acc; reflexivity.
Qed.

Lemma nzhead_not_D0 d y : Decimal.nzhead d <> Decimal.D0 y.
Proof. induction d; simpl; congruence. Qed.

Lemma to_uint_head p : exists c t, uint_chars (Pos.to_uint p) = c :: t /\ (49 <= c <= 57)%N.
Proof.
  pose proof (DecimalPos.Unsigned.to_of (Pos.to_uint p)) as E.
  rewrite DecimalPos.Unsigned.of_to in E. simpl in E.
  pose proof (DecimalPos.Unsigned.to_uint_nonnil p) as Hn.
  pose proof (DecimalPos.Unsigned.to_uint_nonzero p) as Hz.
  destruct (Pos.to_uint p) eqn:Eu; try contradiction; simpl; eexists _, _; split;
    try reflexivity; try lia.
  exfalso. unfold Decimal.unorm in E. simpl in E.
  destruct (Decimal.nzhead u) eqn:Eh; try (eapply nzhead_not_D0; eassumption).
  all: try discriminate.
  apply Hz. rewrite E. reflexivity.
Qed.

Lemma uint_chars_digits u : Forall (fun c => is_digit c = true) (uint_chars u).
Proof. induction u; simpl; constructor; auto. Qed.

Lemma int_repr_literal z :
  exists sg ip, int_repr z = sg ++ ip /\ (sg = [] \/ sg = [45%N]) /\
    (ip = [48%N] \/ exists d ds, ip = d :: ds /\ (49 <= d <= 57)%N /\
                                 Forall (fun c => is_digit c = true) ds) /\
    match sg with [] => digits_value ip | _ => Z.opp (digits_value ip) end = z /\
    List.length ip = List.length (int_repr (Z.abs z)).
Proof.
  destruct z as [|p|p].
  - exists [], [48%N]. repeat split; auto.
  - destruct (to_uint_head p) as (c & t & E & Hc).
    exists [], (uint_chars (Pos.to_uint p)). unfold int_repr; simpl. repeat split; auto.
    + right. exists c, t. repeat split; auto; try lia.
      pose proof (uint_chars_digits (Pos.to_uint p)) as H. rewrite E in H.
      inversion H; auto.
    + rewrite digits_value_uint, DecimalPos.Unsigned.of_to. reflexivity.
  - destruct (to_uint_head p) as (c & t & E & Hc).
    exists [45%N], (uint_chars (Pos.to_uint p)). unfold int_repr; simpl. repeat split; auto.
    + right. exists c, t. repeat split; auto; try lia.
      pose proof (uint_chars_digits (Pos.to_uint p)) as H. rewrite E in H.
      inversion H; auto.
    + rewrite digits_value_uint, DecimalPos.Unsigned.of_to. reflexivity.
Qed.

(** ** Laid-out texts parse back *)

Lemma rt_ok_arr fr ea l : rt_ok fr ea (JArr l) <-> Forall (rt_ok fr ea) l.
Proof.
  simpl; induction l as [|x l IH]; simpl.
  - split; auto.
  - rewrite IH. split; [intros [H1 H2]; constructor; auto | intros H; inversion H; auto].
Qed.

Lemma rt_ok_obj fr ea o :
  rt_ok fr ea (JObj o) <-> Forall (fun kv => str_ok ea (fst kv) /\ rt_ok fr ea (snd kv)) o.
Proof.
  simpl; induction o as [|x o IH]; simpl.
  - split; auto.
  - rewrite IH. split; [intros (H1 & H2 & H3); constructor; auto | intros H; inversion H; tauto].
Qed.

Lemma skip_ws_ws w t : ws_only w -> skip_ws (w ++ t) = skip_ws t.
Proof. induction 1 as [|c w Hc _ IH]; simpl; [reflexivity|]. rewrite Hc. exact IH. Qed.

Lemma skip_ws_head c r : json_ws c = false -> skip_ws (c :: r) = c :: r.
Proof. intros H; simpl; rewrite H; reflexivity. Qed.

Lemma starts_with_none p t : (forall r, t <> p ++ r) -> starts_with p t = None.
Proof.
  intros H. destruct (starts_with p t) as [r|] eqn:E; [|reflexivity].
  apply starts_with_app in E. exfalso; exact (H r E).
Qed.

Lemma dict_set_new k v acc : ~ In k (keys acc) -> dict_set k v acc = acc ++ [(k, v)].
Proof.
  induction acc as [|[k' v'] acc IH]; simpl; intros H; [reflexivity|].
  destruct (pystr_eqb k k') eqn:E.
  - apply pystr_eqb_eq in E; subst. exfalso; apply H; left; reflexivity.
  - rewrite IH; auto.
Qed.

Lemma flat_map_length_ge (f : N -> pystr) s :
  (forall c, f c <> []) -> List.length s <= List.length (flat_map f s).
Proof.
  intros Hf. induction s as [|c s IH]; simpl; [lia|]. rewrite length_app.
  specialize (Hf c). destruct (f c); [contradiction|]. simpl; lia.
Qed.

Lemma esc_char_nonempty c : esc_char c <> [].
Proof.
  unfold esc_char. destruct (short_escape c) as [e|] eqn:E.
  - unfold short_escape in E. repeat (destruct (_ =? _)%N; [inversion E; subst; discriminate|]). discriminate.
  - destruct (c <? 32)%N; discriminate.
Qed.

Lemma esc_char_ascii_nonempty c : esc_char_ascii c <> [].
Proof.
  unfold esc_char_ascii. destruct (short_escape c) as [e|] eqn:E.
  - unfold short_escape in E. repeat (destruct (_ =? _)%N; [inversion E; subst; discriminate|]). discriminate.
  - destruct (_ && _); [discriminate|]. destruct (c <? 65536)%N; discriminate.
Qed.

Lemma scan_ser_str ea s rest : str_ok ea s ->
  scan_string (S (List.length (flat_map (if ea then esc_char_ascii else esc_char) s ++ 34%N :: rest)))
              (flat_map (if ea then esc_char_ascii else esc_char) s ++ 34%N :: rest)
  = Some (s, rest).
Proof.
  intros Hs. destruct ea.
  - destruct (Hs eq_refl) as [Hb Hp]. apply scan_string_esc_ascii; auto.
    rewrite length_app. pose proof (flat_map_length_ge _ s esc_char_ascii_nonempty). lia.
  - apply scan_string_esc_char.
    rewrite length_app. pose proof (flat_map_length_ge _ s esc_char_nonempty). lia.
Qed.

Lemma parse_value_atom fr n c r : c <> 34%N -> c <> 123%N -> c <> 91%N ->
  parse_value fr (S n) (c :: r) =
  match starts_with (py "null") (c :: r) with
  | Some r' => Some (JNull, r')
  | None =>
  match starts_with (py "true") (c :: r) with
  | Some r' => Some (JBool true, r')
  | None =>
  match starts_with (py "false") (c :: r) with
  | Some r' => Some (JBool false, r')
  | None =>
  match starts_with (py "NaN") (c :: r) with
  | Some r' => Some (JFloat (py "NaN"), r')
  | None =>
  match starts_with (py "Infinity") (c :: r) with
  | Some r' => Some (JFloat (py "Infinity"), r')
  | None =>
  match starts_with (py "-Infinity") (c :: r) with
  | Some r' => Some (JFloat (py "-Infinity"), r')
  | None => scan_number fr (c :: r)
  end end end end end end.
Proof.
  intros H1 H2 H3. cbn [parse_value].
  rewrite (proj2 (N.eqb_neq c 34) H1), (proj2 (N.eqb_neq c 123) H2), (proj2 (N.eqb_neq c 91) H3).
  reflexivity.
Qed.

Lemma laid_out_head fr ea v t : laid_out ea v t -> rt_ok fr ea v ->
  exists c r, t = c :: r /\
    (c = 34%N \/ c = 91%N \/ c = 123%N \/ c = 110%N \/ c = 116%N \/ c = 102%N \/
     c = 78%N \/ c = 73%N \/ c = 45%N \/ (48 <= c <= 57)%N).
Proof.
  intros Hl Hr. destruct Hl as [v Hs| | | |].
  - destruct v as [|[]|z|r| | |]; try contradiction; simpl.
    + eexists _, _; split; [reflexivity|]; tauto.
    + eexists _, _; split; [reflexivity|]; tauto.
    + eexists _, _; split; [reflexivity|]; tauto.
    + destruct (int_repr_literal z) as (sg & ip & E & Hsg & Hip & _).
      rewrite E. destruct Hsg as [->| ->]; destruct Hip as [->|(d & ds & -> & Hd & _)];
        simpl; eexists _, _; (split; [reflexivity|]); lia.
    + simpl in Hr.
      destruct Hr as [->|[->|[->|(_ & sg & ip & fp & ex & -> & Hsg & Hip & _)]]].
      * eexists _, _; split; [reflexivity|]; tauto.
      * eexists _, _; split; [reflexivity|]; tauto.
      * eexists _, _; split; [reflexivity|]; tauto.
      * destruct Hsg as [->| ->]; destruct Hip as [->|(d & ds & -> & Hd & _)];
          simpl; eexists _, _; (split; [reflexivity|]); lia.
    + eexists _, _; split; [reflexivity|]; tauto.
  - eexists _, _; split; [reflexivity|]; tauto.
  - eexists _, _; split; [reflexivity|]; tauto.
  - eexists _, _; split; [reflexivity|]; tauto.
  - eexists _, _; split; [reflexivity|]; tauto.
Qed.

Ltac sw_step :=
  match goal with
  | |- context [starts_with ?p ?t] =>
      first
      [ rewrite (proj2 (starts_with_app p t _) eq_refl)
      | rewrite (starts_with_none p t)
          by (let r0 := fresh in let E := fresh in
              intros r0 E; simpl in E; inversion E; subst; lia) ]
  end.

Lemma delim_num_end rest : delim_next rest ->
  forall c r, rest = c :: r -> is_digit c = false /\ c <> 46%N /\ c <> 101%N /\ c <> 69%N.
Proof.
  intros H c r E. specialize (H c r E).
  assert (Hc : c = 32%N \/ c = 9%N \/ c = 10%N \/ c = 13%N \/ c = 44%N \/ c = 93%N \/ c = 125%N).
  { destruct H as [H|H]; [|tauto]. unfold json_ws in H.
    repeat (apply orb_true_iff in H as [H|H]); apply N.eqb_eq in H; tauto. }
  repeat split; [unfold is_digit; apply andb_false_iff;
                 destruct Hc as [->|[->|[->|[->|[->|[->| ->]]]]]]; simpl; auto| | |];
    lia.
Qed.

Lemma parse_scalar fr ea v n rest :
  match v with JArr _ | JObj _ => False | _ => True end ->
  rt_ok fr ea v -> delim_next rest ->
  parse_value fr (S n) (dumps ea false v ++ rest) = Some (v, rest).
Proof.
  intros Hv Hr Hd. pose proof (delim_num_end rest Hd) as Hn.
  destruct v as [|[]|z|r|s| |]; try contradiction.
  - change (dumps ea false JNull ++ rest) with (110%N :: 117%N :: 108%N :: 108%N :: rest).
    rewrite parse_value_atom by discriminate. repeat sw_step. reflexivity.
  - change (dumps ea false (JBool true) ++ rest) with (116%N :: 114%N :: 117%N :: 101%N :: rest).
    rewrite parse_value_atom by discriminate. repeat sw_step. reflexivity.
  - change (dumps ea false (JBool false) ++ rest) with (102%N :: 97%N :: 108%N :: 115%N :: 101%N :: rest).
    rewrite parse_value_atom by discriminate. repeat sw_step. reflexivity.
  - simpl in Hr. destruct (int_repr_literal z) as (sg & ip & E & Hsg & Hip & Hval & Hlen).
    pose proof (scan_number_literal fr sg ip [] [] rest Hsg Hip (or_introl eq_refl) (or_introl eq_refl) Hn) as Hs.
    replace (Nat.ltb int_max_str_digits (List.length ip)) with false in Hs
      by (symmetry; apply Nat.ltb_ge; lia).
    simpl dumps. rewrite E, <- app_assoc. rewrite <- Hval.
    destruct Hsg as [->| ->]; destruct Hip as [->|(d & ds & -> & Hd' & _)]; simpl app in Hs |- *;
      rewrite parse_value_atom by lia; repeat sw_step; exact Hs.
  - simpl in Hr. simpl dumps.
    destruct Hr as [->|[->|[->|(Hfr & sg & ip & fp & ex & -> & Hsg & Hip & Hfp & Hex & Hne)]]].
    + change (py "NaN" ++ rest) with (78%N :: 97%N :: 78%N :: rest).
      rewrite parse_value_atom by discriminate. repeat sw_step. reflexivity.
    + change (py "Infinity" ++ rest) with (73%N :: py "nfinity" ++ rest).
      rewrite parse_value_atom by discriminate. repeat sw_step. reflexivity.
    + change (py "-Infinity" ++ rest) with (45%N :: py "Infinity" ++ rest).
      rewrite parse_value_atom by discriminate. repeat sw_step. reflexivity.
    + pose proof (scan_number_literal fr sg ip fp ex rest Hsg Hip Hfp Hex Hn) as Hs.
      assert (Hs' : scan_number fr (sg ++ ip ++ fp ++ ex ++ rest)
                    = Some (JFloat (sg ++ ip ++ fp ++ ex), rest)).
      { rewrite Hs. destruct Hne as [Hne|Hne]; destruct fp, ex; try congruence;
          rewrite Hfr; reflexivity. }
      clear Hs.
      rewrite <- !app_assoc.
      destruct Hsg as [->| ->]; destruct Hip as [->|(d & ds & -> & Hd' & _)]; simpl app in Hs' |- *;
        rewrite parse_value_atom by lia; repeat sw_step; exact Hs'.
  - simpl dumps. unfold ser_str.
    replace ((34%N :: flat_map (if ea then esc_char_ascii else esc_char) s ++ [34%N]) ++ rest)
      with (34%N :: flat_map (if ea then esc_char_ascii else esc_char) s ++ 34%N :: rest)
      by (simpl; rewrite <- app_assoc; reflexivity).
    cbn [parse_value N.eqb Pos.eqb]. rewrite scan_ser_str by exact Hr. reflexivity.
Qed.

Lemma laid_out_head_ws fr ea v t X : laid_out ea v t -> rt_ok fr ea v ->
  exists c X', t ++ X = c :: X' /\ json_ws c = false /\ c <> 93%N /\ c <> 125%N /\ c <> 65279%N.
Proof.
  intros Hl Hr. destruct (laid_out_head fr ea v t Hl Hr) as (c & r & -> & Hc).
  exists c, (r ++ X). split; [reflexivity|].
  unfold json_ws.
  destruct Hc as [->|[->|[->|[->|[->|[->|[->|[->|[->|Hc]]]]]]]]]; try (split; [reflexivity|lia]).
  repeat split; try lia.
  repeat (apply orb_false_iff; split); apply N.eqb_neq; lia.
Qed.

Lemma delim_ws_then w c r : ws_only w -> (c = 44%N \/ c = 93%N \/ c = 125%N) -> delim_next (w ++ c :: r).
Proof.
  intros Hw Hc c' r' E. destruct w as [|c0 w]; simpl in E; inversion E; subst; [tauto|].
  inversion Hw; auto.
Qed.

Lemma skip_ws_laid fr ea v t X : laid_out ea v t -> rt_ok fr ea v -> skip_ws (t ++ X) = t ++ X.
Proof.
  intros Hl Hr. destruct (laid_out_head_ws fr ea v t X Hl Hr) as (c & X' & E & Hc & _).
  rewrite E. apply skip_ws_head; exact Hc.
Qed.

Lemma join_cons_app sep t ts Y :
  join sep (t :: ts) ++ Y = t ++ (match ts with [] => [] | _ :: _ => sep ++ join sep ts end ++ Y).
Proof. simpl. rewrite app_assoc. reflexivity. Qed.

Lemma join_head_arr fr ea l ts sep Y :
  Forall2 (laid_out ea) l ts -> Forall (rt_ok fr ea) l -> l <> [] ->
  exists c X', join sep ts ++ Y = c :: X' /\ json_ws c = false /\ c <> 93%N.
Proof.
  intros H2 Hok Hne. destruct H2 as [|a t l ts Ha _]; [contradiction|].
  inversion Hok as [|? ? Hoka _]; subst. rewrite join_cons_app.
  destruct (laid_out_head_ws fr ea a t (match ts with [] => [] | _ :: _ => sep ++ join sep ts end ++ Y) Ha Hoka)
    as (c & X' & E & Hc1 & Hc2 & _).
  exists c, X'. auto.
Qed.

Lemma skip_ws_join_arr fr ea l ts sep Y :
  Forall2 (laid_out ea) l ts -> Forall (rt_ok fr ea) l -> l <> [] ->
  skip_ws (join sep ts ++ Y) = join sep ts ++ Y.
Proof.
  intros H2 Hok Hne. destruct (join_head_arr fr ea l ts sep Y H2 Hok Hne) as (c & X' & E & Hc & _).
  rewrite E. apply skip_ws_head; exact Hc.
Qed.

Lemma parse_elems_laid fr ea w2 wa wb rest : ws_only w2 -> ws_only wa -> ws_only wb ->
  forall l ts acc m,
  Forall (fun v => forall t rest n, laid_out ea v t -> rt_ok fr ea v -> delim_next rest ->
                   jsize v <= n -> parse_value fr n (t ++ rest) = Some (v, rest)) l ->
  Forall2 (laid_out ea) l ts -> Forall (rt_ok fr ea) l -> l <> [] ->
  list_sum (map (fun e => S (jsize e)) l) <= m ->
  parse_elems fr m (join (wa ++ 44%N :: wb) ts ++ w2 ++ 93%N :: rest) acc
  = Some (JArr (rev acc ++ l), rest).
Proof.
  intros Hw2 Hwa Hwb l ts acc m HP H2. revert acc m HP.
  induction H2 as [|e t l ts He H2 IH2]; intros acc m HP Hok Hne Hm; [contradiction|].
  inversion HP as [|? ? HPe HP']; subst. inversion Hok as [|? ? Hoke Hok']; subst.
  destruct m as [|m]; [simpl in Hm; lia|]. simpl in Hm.
  cbn [parse_elems]. rewrite join_cons_app.
  destruct H2 as [|e' t' l' ts' He' H2'].
  - rewrite app_nil_l.
    rewrite (HPe t (w2 ++ 93%N :: rest) m He Hoke) by (try apply delim_ws_then; auto; lia).
    rewrite skip_ws_ws by exact Hw2. cbn [skip_ws json_ws N.eqb Pos.eqb orb].
    simpl rev. reflexivity.
  - cbv iota beta. rewrite <- !app_assoc, <- app_comm_cons.
    rewrite (HPe t _ m He Hoke) by (try apply delim_ws_then; auto; lia).
    rewrite skip_ws_ws by exact Hwa. cbn [skip_ws json_ws N.eqb Pos.eqb orb].
    rewrite skip_ws_ws by exact Hwb.
    rewrite (skip_ws_join_arr fr ea (e' :: l') (t' :: ts')) by (auto; discriminate).
    rewrite IH2 by (auto; discriminate || (simpl in Hm |- *; lia)).
    simpl rev. rewrite <- app_assoc. reflexivity.
Qed.

Lemma parse_members_laid fr ea w2 wa wb ka kb rest :
  ws_only w2 -> ws_only wa -> ws_only wb -> ws_only ka -> ws_only kb ->
  forall o ts acc m,
  Forall (fun kv => forall t rest n, laid_out ea (snd kv) t -> rt_ok fr ea (snd kv) ->
                    delim_next rest -> jsize (snd kv) <= n ->
                    parse_value fr n (t ++ rest) = Some (snd kv, rest)) o ->
  Forall2 (fun kv t => exists tv, laid_out ea (snd kv) tv /\
                                  t = ser_str ea (fst kv) ++ ka ++ 58%N :: kb ++ tv) o ts ->
  Forall (fun kv => str_ok ea (fst kv) /\ rt_ok fr ea (snd kv)) o -> o <> [] ->
  NoDup (keys (acc ++ o)) ->
  list_sum (map (fun kv => S (jsize (snd kv))) o) <= m ->
  parse_members fr m (join (wa ++ 44%N :: wb) ts ++ w2 ++ 125%N :: rest) acc
  = Some (JObj (acc ++ o), rest).
Proof.
  intros Hw2 Hwa Hwb Hka Hkb o ts acc m HP H2. revert acc m HP.
  induction H2 as [|[k v] t o ts Ht H2 IH2]; intros acc m HP Hok Hne Hnd Hm; [contradiction|].
  inversion HP as [|? ? HPe HP']; subst. inversion Hok as [|? ? [Hk Hv] Hok']; subst.
  simpl in HPe, Hk, Hv.
  destruct Ht as (tv & Htv & ->). simpl fst in *; simpl snd in *.
  destruct m as [|m]; [simpl in Hm; lia|]. simpl in Hm.
  assert (Hnk : ~ In k (keys acc)).
  { unfold keys in Hnd. rewrite map_app in Hnd. apply NoDup_remove_2 in Hnd.
    intros Hin; apply Hnd. apply in_or_app; left; exact Hin. }
  rewrite join_cons_app. unfold ser_str at 1.
  rewrite <- !app_assoc, <- !app_comm_cons, <- !app_assoc.
  change ([34%N] ++ ?X) with (34%N :: X).
  cbn [parse_members N.eqb Pos.eqb].
  rewrite scan_ser_str by exact Hk.
  rewrite skip_ws_ws by exact Hka. cbn [skip_ws json_ws N.eqb Pos.eqb orb].
  rewrite skip_ws_ws by exact Hkb. rewrite (skip_ws_laid fr ea v tv _ Htv Hv).
  destruct H2 as [|kv' t' o' ts' Ht' H2'].
  - rewrite app_nil_l.
    rewrite (HPe tv (w2 ++ 125%N :: rest) m Htv Hv) by (try apply delim_ws_then; auto; lia).
    rewrite dict_set_new by exact Hnk.
    rewrite skip_ws_ws by exact Hw2. cbn [skip_ws json_ws N.eqb Pos.eqb orb].
    reflexivity.
  - cbv iota beta. rewrite <- !app_assoc, <- app_comm_cons.
    rewrite (HPe tv _ m Htv Hv) by (try apply delim_ws_then; auto; lia).
    rewrite dict_set_new by exact Hnk.
    rewrite skip_ws_ws by exact Hwa. cbn [skip_ws json_ws N.eqb Pos.eqb orb].
    rewrite <- ?app_assoc, (skip_ws_ws wb) by exact Hwb.
    replace (skip_ws (join (wa ++ 44%N :: wb) (t' :: ts') ++ w2 ++ 125%N :: rest))
      with (join (wa ++ 44%N :: wb) (t' :: ts') ++ w2 ++ 125%N :: rest)
      by (rewrite join_cons_app; destruct Ht' as (tv' & _ & ->); reflexivity).
    rewrite IH2; auto; try discriminate.
    + rewrite <- app_assoc. reflexivity.
    + rewrite <- app_assoc. exact Hnd.
    + simpl in Hm |- *. lia.
Qed.

Lemma parse_laid_out fr ea v : forall t rest n,
  laid_out ea v t -> rt_ok fr ea v -> delim_next rest -> jsize v <= n ->
  parse_value fr n (t ++ rest) = Some (v, rest).
Proof.
  induction v as [| | | | | l IH | o IH] using JVal_ind'; intros t rest n Hl Hr Hd Hn;
    inversion Hl; subst; try contradiction;
    try (destruct n as [|n]; [simpl in Hn; lia|]; apply parse_scalar; auto; fail).
  - (* empty array *)
    destruct n as [|n]; [simpl in Hn; lia|].
    rewrite <- app_comm_cons, <- app_assoc. cbn [parse_value N.eqb Pos.eqb].
    rewrite skip_ws_ws by assumption. reflexivity.
  - (* array *)
    destruct n as [|n]; [simpl in Hn; lia|]. simpl in Hn.
    apply rt_ok_arr in Hr.
    rewrite <- app_comm_cons, <- !app_assoc. cbn [parse_value N.eqb Pos.eqb].
    rewrite skip_ws_ws by assumption.
    change ([93%N] ++ rest) with (93%N :: rest).
    destruct (join_head_arr fr ea l ts (wa ++ 44%N :: wb) (w2 ++ 93%N :: rest))
      as (c & X' & E & Hc & Hc93); auto.
    rewrite E. cbn [skip_ws]. rewrite Hc. rewrite (proj2 (N.eqb_neq c 93) Hc93).
    rewrite <- E. apply (parse_elems_laid fr ea w2 wa wb rest) with (acc := []); auto; lia.
  - (* empty object *)
    destruct n as [|n]; [simpl in Hn; lia|].
    rewrite <- app_comm_cons, <- app_assoc. cbn [parse_value N.eqb Pos.eqb].
    rewrite skip_ws_ws by assumption. reflexivity.
  - (* object *)
    destruct n as [|n]; [simpl in Hn; lia|]. simpl in Hn.
    apply rt_ok_obj in Hr.
    rewrite <- app_comm_cons, <- !app_assoc. cbn [parse_value N.eqb Pos.eqb].
    rewrite skip_ws_ws by assumption.
    change ([125%N] ++ rest) with (125%N :: rest).
    destruct ts as [|t1 ts']; [destruct o; [congruence | inversion H2]|].
    inversion H2 as [|? ? ? ? Ht1 _]; subst. destruct Ht1 as (tv & _ & Et1).
    replace (skip_ws (join (wa ++ 44%N :: wb) (t1 :: ts') ++ w2 ++ 125%N :: rest))
      with (join (wa ++ 44%N :: wb) (t1 :: ts') ++ w2 ++ 125%N :: rest)
      by (rewrite join_cons_app, Et1; reflexivity).
    assert (Hj : exists X', join (wa ++ 44%N :: wb) (t1 :: ts') ++ w2 ++ 125%N :: rest = 34%N :: X')
      by (rewrite join_cons_app, Et1; eexists; reflexivity).
    destruct Hj as [X' Hj]. rewrite Hj. cbn [N.eqb Pos.eqb]. rewrite <- Hj.
    apply (parse_members_laid fr ea w2 wa wb ka kb rest) with (acc := []); auto; lia.
Qed.

(** ** Encoder layouts and json.loads *)

Lemma join_length sep ts : sep <> [] ->
  List.length ts + list_sum (map (@List.length N) ts) <= List.length (join sep ts) + 1.
Proof.
  intros Hs. destruct sep as [|c sep]; [congruence|].
  induction ts as [|x r IH]; [simpl; lia|].
  destruct r as [|y r]; [simpl; rewrite length_app; simpl; lia|].
  change (join (c :: sep) (x :: y :: r)) with (x ++ (c :: sep) ++ join (c :: sep) (y :: r)).
  set (J := join (c :: sep) (y :: r)) in *. set (r' := y :: r) in *.
  rewrite !length_app. cbn [List.length map] in *. change (list_sum (?a :: ?l)) with (a + list_sum l). lia.
Qed.

Lemma Forall2_and_l {A B} (P : A -> Prop) (R : A -> B -> Prop) l ts :
  Forall P l -> Forall2 R l ts -> Forall2 (fun a b => P a /\ R a b) l ts.
Proof. intros HP HR. induction HR; inversion HP; subst; constructor; auto. Qed.

Lemma sum_le_Forall2 {A B} (f : A -> nat) (g : B -> nat) l ts :
  Forall2 (fun a b => f a <= g b) l ts -> list_sum (map f l) <= list_sum (map g ts).
Proof. intros H. induction H; simpl; lia. Qed.

Lemma Forall2_impl' {A B} (R1 R2 : A -> B -> Prop) l ts :
  (forall a b, R1 a b -> R2 a b) -> Forall2 R1 l ts -> Forall2 R2 l ts.
Proof. intros Hi H. induction H; constructor; auto. Qed.

Lemma sum_S_length (ts : list pystr) :
  list_sum (map (fun t => S (List.length t)) ts) = List.length ts + list_sum (map (@List.length N) ts).
Proof. induction ts; simpl; lia. Qed.

Lemma laid_out_size fr ea v : forall t, laid_out ea v t -> rt_ok fr ea v -> jsize v <= List.length t.
Proof.
  induction v as [| | | | | l IH | o IH] using JVal_ind'; intros t Hl Hr;
    inversion Hl; subst; try contradiction;
    try (destruct (laid_out_head fr ea _ _ Hl Hr) as (c0 & r0 & E & _); cbn [dumps] in E |- *; rewrite E; simpl; lia).
  - apply rt_ok_arr in Hr. simpl. rewrite !length_app. simpl.
    assert (Hs : list_sum (map (fun e => S (jsize e)) l) <= list_sum (map (fun t => S (List.length t)) ts)).
    { apply sum_le_Forall2.
      apply (Forall2_impl' (fun a b => (Forall (rt_ok fr ea) [a] /\ (forall t, laid_out ea a t -> rt_ok fr ea a -> jsize a <= List.length t)) /\ laid_out ea a b)).
      - intros a b [[Ha Hi] Hab]. inversion Ha; subst. specialize (Hi b Hab ltac:(assumption)). lia.
      - apply Forall2_and_l; auto.
        rewrite Forall_forall in IH, Hr |- *. intros x Hx. split; auto. }
    rewrite sum_S_length in Hs.
    pose proof (join_length (wa ++ 44%N :: wb) ts ltac:(destruct wa; discriminate)).
    set (J := List.length (join _ ts)) in *. set (S0 := list_sum (map (fun e => S (jsize e)) l)) in *.
    change (@List.length pystr ts) with (@List.length (list N) ts) in *. lia.
  - apply rt_ok_obj in Hr. simpl. rewrite !length_app. simpl.
    assert (Hs : list_sum (map (fun kv => S (jsize (snd kv))) o) <= list_sum (map (fun t => S (List.length t)) ts)).
    { apply sum_le_Forall2.
      apply (Forall2_impl' (fun (a : pystr * JVal) b => ((str_ok ea (fst a) /\ rt_ok fr ea (snd a)) /\ (forall t, laid_out ea (snd a) t -> rt_ok fr ea (snd a) -> jsize (snd a) <= List.length t)) /\ (exists tv, laid_out ea (snd a) tv /\ b = ser_str ea (fst a) ++ ka ++ 58%N :: kb ++ tv))).
      - intros a b [[[_ Ha] Hi] (tv & Htv & ->)]. specialize (Hi tv Htv Ha).
        rewrite !length_app. simpl. rewrite !length_app. lia.
      - apply Forall2_and_l; auto.
        rewrite Forall_forall in IH, Hr |- *. intros x Hx. split; auto. }
    rewrite sum_S_length in Hs.
    pose proof (join_length (wa ++ 44%N :: wb) ts ltac:(destruct wa; discriminate)).
    change (@List.length pystr ts) with (@List.length (list N) ts) in *. lia.
Qed.

Lemma json_loads_laid fr ea v t : laid_out ea v t -> rt_ok fr ea v -> json_loads fr t = Some v.
Proof.
  intros Hl Hr.
  destruct (laid_out_head_ws fr ea v t [] Hl Hr) as (c & X' & E & Hc & _ & _ & Hbom).
  rewrite app_nil_r in E.
  pose proof (laid_out_size fr ea v t Hl Hr) as Hs.
  pose proof (parse_laid_out fr ea v t [] (2 * List.length t + 2) Hl Hr
                ltac:(intros c' r' E'; discriminate) ltac:(lia)) as Hp.
  rewrite app_nil_r in Hp.
  unfold json_loads. rewrite E in Hp |- *. rewrite (proj2 (N.eqb_neq c 65279) Hbom).
  rewrite skip_ws_head by exact Hc. rewrite Hp. reflexivity.
Qed.

Lemma ws_only_nil : ws_only [].
Proof. constructor. Qed.

Lemma ws_only_space : ws_only [32%N].
Proof. repeat constructor. Qed.


Lemma Forall2_map_r {A B} (R : A -> B -> Prop) (f : A -> B) l :
  Forall (fun a => R a (f a)) l -> Forall2 R l (map f l).
Proof. intros H. induction H; simpl; constructor; auto. Qed.

Lemma keys_unique_obj o :
  keys_unique (JObj o) = true <-> NoDup (keys o) /\ Forall (fun kv => keys_unique (snd kv) = true) o.
Proof.
  simpl. rewrite andb_true_iff, nodupb_NoDup, forallb_forall, Forall_forall. reflexivity.
Qed.

Lemma keys_unique_arr l :
  keys_unique (JArr l) = true <-> Forall (fun e => keys_unique e = true) l.
Proof. simpl. rewrite forallb_forall, Forall_forall. reflexivity. Qed.

Lemma laid_out_dumps ea v : keys_unique v = true -> laid_out ea v (dumps ea false v).
Proof.
  induction v as [| | | | | l IH | o IH] using JVal_ind'; intros Hk;
    try (apply lo_scalar; exact I).
  - destruct l as [|x l].
    + apply (lo_arr_nil ea [] ws_only_nil).
    + apply keys_unique_arr in Hk.
      change (dumps ea false (JArr (x :: l))) with
        (91%N :: [] ++ join ([] ++ 44%N :: [32%N]) (map (dumps ea false) (x :: l)) ++ [] ++ [93%N]).
      apply lo_arr; auto using ws_only_nil, ws_only_space; [discriminate|].
      apply Forall2_map_r. rewrite Forall_forall in IH, Hk |- *. auto.
  - destruct o as [|kv o].
    + apply (lo_obj_nil ea [] ws_only_nil).
    + apply keys_unique_obj in Hk as [Hnd Hk].
      replace (dumps ea false (JObj (kv :: o))) with
        (123%N :: [] ++ join ([] ++ 44%N :: [32%N])
           (map (fun kv => ser_str ea (fst kv) ++ [] ++ 58%N :: [32%N] ++ dumps ea false (snd kv)) (kv :: o))
           ++ [] ++ [125%N])
        by (cbn [dumps]; rewrite map_map; reflexivity).
      apply (lo_obj ea _ _ [] [] [32%N] [] [32%N] []); auto using ws_only_nil, ws_only_space; [discriminate|].
      apply Forall2_map_r. rewrite Forall_forall in IH, Hk |- *. intros x Hx.
      exists (dumps ea false (snd x)). split; auto.
Qed.


(** ** Round trips of the encoders *)

Ltac rt_ok_concrete :=
  cbn; repeat split; try (intros ?; discriminate);
  try (apply Nat.leb_le; reflexivity); try (repeat constructor).

Lemma keys_unique_norm v : keys_unique v = true -> keys_unique (norm v) = true.
Proof.
  induction v as [| | | | | l IH | o IH] using JVal_ind'; intros Hk; try exact Hk.
  - apply keys_unique_arr in Hk. apply keys_unique_arr.
    rewrite Forall_forall in IH, Hk |- *. intros x Hx.
    apply in_map_iff in Hx as [y [<- Hy]]. auto.
  - apply keys_unique_obj in Hk as [Hnd Hk]. cbn [norm]. apply keys_unique_obj. split.
    + unfold keys. apply (Permutation_NoDup (Permutation_map fst (Permutation_sym (sort_items_perm _)))).
      rewrite keys_map_norm. exact Hnd.
    + rewrite Forall_forall in IH, Hk |- *. intros [k w] Hx.
      apply In_sort_norm in Hx as [y [Hy ->]]. apply (IH (k, y) Hy), (Hk (k, y) Hy).
Qed.

Lemma rt_ok_norm fr ea v : rt_ok fr ea v -> rt_ok fr ea (norm v).
Proof.
  induction v as [| | | | | l IH | o IH] using JVal_ind'; intros Hr; try exact Hr.
  - apply rt_ok_arr in Hr. apply rt_ok_arr.
    rewrite Forall_forall in IH, Hr |- *. intros x Hx.
    apply in_map_iff in Hx as [y [<- Hy]]. auto.
  - apply rt_ok_obj in Hr. cbn [norm]. apply rt_ok_obj.
    rewrite Forall_forall in IH, Hr |- *. intros [k w] Hx.
    apply In_sort_norm in Hx as [y [Hy ->]]. simpl.
    destruct (Hr (k, y) Hy) as [H1 H2]. split; [exact H1|]. apply (IH (k, y) Hy), H2.
Qed.

(** X1: [json.loads] reads the key [normalize_site] computes back as the
    entry with every dict's items in key order, for an entry whose dicts
    have distinct keys and whose ints, floats and strings [json.loads]
    reads back. *)
Theorem normalize_site_loads fr v :
  keys_unique v = true -> rt_ok fr false v -> json_loads fr (normalize_site v) = Some (norm v).
Proof.
  intros Hk Hr. unfold normalize_site. rewrite dumps_sort_keys_norm.
  apply (json_loads_laid fr false).
  - apply laid_out_dumps, keys_unique_norm, Hk.
  - apply rt_ok_norm, Hr.
Qed.

Lemma normalize_site_loads_witness :
  let fr := fun s : pystr => s in
  let v := JObj [(py "b", JInt 10); (py "a", JArr [JNull; JStr (py "x"); JObj []])] in
  keys_unique v = true /\ rt_ok fr false v /\
  json_loads fr (normalize_site v) = Some (norm v).
Proof.
  intros fr v.
  assert (Hk : keys_unique v = true) by reflexivity.
  assert (Hr : rt_ok fr false v) by rt_ok_concrete.
  split; [exact Hk|]. split; [exact Hr|].
  apply normalize_site_loads; assumption.
Defined.

(** X2: [json.dumps(data)] (ASCII escapes, items in their order) is read
    back by [json.loads] as [data] itself, when [data]'s dicts have
    distinct keys and its ints, floats and strings are read back. *)
Theorem dumps_ascii_loads fr v :
  keys_unique v = true -> rt_ok fr true v -> json_loads fr (dumps true false v) = Some v.
Proof. intros Hk Hr. apply (json_loads_laid fr true); auto using laid_out_dumps. Qed.


Lemma dumps_ascii_loads_witness :
  let fr := fun s : pystr => s in
  let v := JObj [(py "urls", JArr [JStr [233%N; 10%N]; JInt (-7)]); (py "k", JBool false)] in
  keys_unique v = true /\ rt_ok fr true v /\ json_loads fr (dumps true false v) = Some v.
Proof.
  intros fr v.
  assert (Hk : keys_unique v = true) by reflexivity.
  assert (Hr : rt_ok fr true v) by rt_ok_concrete.
  split; [exact Hk|]. split; [exact Hr|].
  apply dumps_ascii_loads; assumption.
Defined.





(** ** What json.loads builds *)

Lemma scan_number_shape fr t v r : scan_number fr t = Some (v, r) ->
  (exists z, v = JInt z) \/ (exists s, v = JFloat (fr s)).
Proof.
  unfold scan_number. intros H.
  repeat match type of H with
  | context [match ?x with _ => _ end] => destruct x eqn:?; try discriminate
  end;
  inversion H; subst; eauto.
Qed.

Lemma In_keys_dict_set k v acc x : In x (keys (dict_set k v acc)) <-> x = k \/ In x (keys acc).
Proof.
  induction acc as [|[k' v'] acc IH]; simpl.
  - intuition congruence.
  - destruct (pystr_eqb k k') eqn:E; simpl.
    + apply pystr_eqb_eq in E; subst. intuition congruence.
    + rewrite IH. intuition congruence.
Qed.

Lemma dict_set_NoDup k v acc : NoDup (keys acc) -> NoDup (keys (dict_set k v acc)).
Proof.
  induction acc as [|[k' v'] acc IH]; simpl; intros Hn.
  - repeat constructor; simpl; tauto.
  - inversion Hn as [|? ? Hk Hn']; subst.
    destruct (pystr_eqb k k') eqn:E; simpl; constructor; auto.
    rewrite In_keys_dict_set. intros [->|H]; auto. rewrite pystr_eqb_refl in E; discriminate.
Qed.

Lemma dict_set_Forall (P : JVal -> Prop) k v acc :
  Forall (fun kv => P (snd kv)) acc -> P v -> Forall (fun kv => P (snd kv)) (dict_set k v acc).
Proof.
  induction acc as [|[k' v'] acc IH]; simpl; intros Ha Hv.
  - repeat constructor; auto.
  - inversion Ha; subst. destruct (pystr_eqb k k'); constructor; auto.
Qed.

Section DecoderInvariant.
Variable float_repr : pystr -> pystr.
Variable P : JVal -> Prop.
Hypothesis P_null : P JNull.
Hypothesis P_bool : forall b, P (JBool b).
Hypothesis P_int : forall z, P (JInt z).
Hypothesis P_float : forall s, P (JFloat (float_repr s)).
Hypothesis P_special : P (JFloat (py "NaN")) /\ P (JFloat (py "Infinity")) /\ P (JFloat (py "-Infinity")).
Hypothesis P_str : forall s, P (JStr s).
Hypothesis P_arr : forall l, Forall P l -> P (JArr l).
Hypothesis P_obj : forall o, NoDup (keys o) -> Forall (fun kv => P (snd kv)) o -> P (JObj o).

Ltac split_matches H :=
  repeat match type of H with
  | context [match ?x with _ => _ end] => destruct x eqn:?; try discriminate
  end.

Lemma parse_invariant n :
  (forall t v r, parse_value float_repr n t = Some (v, r) -> P v) /\
  (forall t acc v r, Forall P acc -> parse_elems float_repr n t acc = Some (v, r) -> P v) /\
  (forall t acc v r, NoDup (keys acc) -> Forall (fun kv => P (snd kv)) acc ->
     parse_members float_repr n t acc = Some (v, r) -> P v).
Proof.
  destruct P_special as (P_nan & P_inf & P_minf).
  induction n as [|n (IH1 & IH2 & IH3)]; [repeat split; intros; discriminate|].
  repeat split.
  - intros t v r H. cbn [parse_value] in H.
    destruct t as [|c t]; [discriminate|].
    destruct (c =? 34)%N.
    { split_matches H. inversion H; subst; auto. }
    destruct (c =? 123)%N.
    { destruct (skip_ws t) as [|c' r'] eqn:Es; [discriminate|].
      destruct (c' =? 125)%N.
      - inversion H; subst. apply P_obj; constructor.
      - apply (IH3 _ [] _ _ (NoDup_nil _) (Forall_nil _) H). }
    destruct (c =? 91)%N.
    { destruct (skip_ws t) as [|c' r'] eqn:Es; [discriminate|].
      destruct (c' =? 93)%N.
      - inversion H; subst. apply P_arr; constructor.
      - eapply IH2; [constructor|exact H]. }
    split_matches H; try (inversion H; subst; auto; fail).
    apply scan_number_shape in H as [[z ->]|[s ->]]; auto.
  - intros t acc v r Ha H. cbn [parse_elems] in H.
    destruct (parse_value float_repr n t) as [[v0 r0]|] eqn:E0; [|discriminate].
    apply IH1 in E0.
    destruct (skip_ws r0) as [|c r'] eqn:Es; [discriminate|].
    destruct (c =? 93)%N.
    + inversion H; subst. apply P_arr. apply Forall_app; split; [apply Forall_rev; exact Ha|constructor; auto].
    + destruct (c =? 44)%N; [|discriminate]. eapply IH2; [|exact H]. constructor; auto.
  - intros t acc v r Hn Ha H. cbn [parse_members] in H.
    destruct t as [|q t]; [discriminate|].
    destruct (q =? 34)%N; [|discriminate].
    destruct (scan_string (S (List.length t)) t) as [[k r1]|]; [|discriminate].
    destruct (skip_ws r1) as [|col r2]; [discriminate|].
    destruct (col =? 58)%N; [|discriminate].
    destruct (parse_value float_repr n (skip_ws r2)) as [[v0 r3]|] eqn:E0; [|discriminate].
    apply IH1 in E0.
    destruct (skip_ws r3) as [|c r4]; [discriminate|].
    destruct (c =? 125)%N.
    + inversion H; subst. apply P_obj; auto using dict_set_NoDup, dict_set_Forall.
    + destruct (c =? 44)%N; [|discriminate].
      eapply IH3; [| |exact H]; auto using dict_set_NoDup, dict_set_Forall.
Qed.

Lemma json_loads_invariant t v : json_loads float_repr t = Some v -> P v.
Proof.
  unfold json_loads. intros H. destruct t as [|c t]; [discriminate|].
  destruct (c =? 65279)%N; [discriminate|].
  destruct (parse_value _ _ _) as [[v0 r]|] eqn:E; [|discriminate].
  destruct (skip_ws r); [|discriminate]. inversion H; subst.
  exact (proj1 (parse_invariant _) _ _ _ E).
Qed.

End DecoderInvariant.

(** X5: a value [json.loads] returns has no dict with a repeated key, at
    any depth: a key read again replaces the value in place. *)
Theorem json_loads_keys_unique fr t v : json_loads fr t = Some v -> keys_unique v = true.
Proof.
  apply (json_loads_invariant fr (fun v => keys_unique v = true)); auto.
  - intros l H. apply keys_unique_arr, H.
  - intros o Hn H. apply keys_unique_obj; auto.
Qed.

Lemma json_loads_keys_unique_witness :
  let fr := fun s : pystr => s in
  let t := pyq "{`a`: 1, `b`: [{}], `a`: 2}" in
  let v := JObj [(py "a", JInt 2); (py "b", JArr [JObj []])] in
  json_loads fr t = Some v /\ keys_unique v = true.
Proof.
  intros fr t v.
  assert (E : json_loads fr t = Some v) by (vm_compute; reflexivity).
  split; [exact E|]. exact (json_loads_keys_unique fr t v E).
Defined.

Lemma wf_json_arr l : wf_json (JArr l) = true <-> Forall (fun e => wf_json e = true) l.
Proof.
  unfold wf_json; simpl. rewrite andb_true_iff, !forallb_forall, Forall_forall.
  split.
  - intros [H1 H2] x Hx. rewrite (H1 x Hx), (H2 x Hx). reflexivity.
  - intros H. split; intros x Hx; specialize (H x Hx); apply andb_true_iff in H; tauto.
Qed.

Lemma wf_json_obj o : wf_json (JObj o) = true <->
  NoDup (keys o) /\ Forall (fun kv => wf_json (snd kv) = true) o.
Proof.
  unfold wf_json; simpl. rewrite !andb_true_iff, !forallb_forall, Forall_forall, nodupb_NoDup.
  split.
  - intros [H1 [H2 H3]]. split; [exact H2|]. intros x Hx. rewrite (H1 x Hx), (H3 x Hx). reflexivity.
  - intros [Hn H]. split; [|split; [exact Hn|]]; intros x Hx; specialize (H x Hx);
      apply andb_true_iff in H; tauto.
Qed.

Lemma json_loads_wf fr t v : (forall s, float_tokenb (fr s) = true) ->
  json_loads fr t = Some v -> wf_json v = true.
Proof.
  intros Hfr. apply (json_loads_invariant fr (fun v => wf_json v = true)); auto.
  - intros s. unfold wf_json. simpl. rewrite Hfr. reflexivity.
  - intros l H. apply (proj2 (wf_json_arr l)), H.
  - intros o Hn H. apply (proj2 (wf_json_obj o)); auto.
Qed.

(** ** The merge loop, fetch_and_extract and the URLs *)

Lemma add_sites_seen sites : forall m,
  NoDup (map normalize_site m) ->
  exists out, add_sites sites (m, map normalize_site m) = (m ++ out, map normalize_site (m ++ out)) /\
              NoDup (map normalize_site (m ++ out)).
Proof.
  induction sites as [|x r IH]; intros m Hn.
  - exists []. rewrite app_nil_r. auto.
  - unfold add_sites; simpl fold_left.
    destruct (existsb (pystr_eqb (normalize_site x)) (map normalize_site m)) eqn:E.
    + exact (IH m Hn).
    + assert (Hx : ~ In (normalize_site x) (map normalize_site m)).
      { intros Hi; apply existsb_pystr_In in Hi; congruence. }
      destruct (IH (m ++ [x])) as [out [Ho Hno]]; [rewrite map_app; apply NoDup_snoc; auto|].
      exists (x :: out). unfold add_sites in Ho.
      replace (map normalize_site m ++ [normalize_site x]) with (map normalize_site (m ++ [x]))
        by apply map_app.
      replace (m ++ x :: out) with ((m ++ [x]) ++ out) by (rewrite <- app_assoc; reflexivity).
      split; [exact Ho | exact Hno].
Qed.

Lemma merge_loop_seen fr net max urls : forall st,
  seen st = map normalize_site (merged st) -> NoDup (seen st) ->
  exists out, merged (merge_loop fr net max urls st) = merged st ++ out /\
    seen (merge_loop fr net max urls st) = map normalize_site (merged (merge_loop fr net max urls st)) /\
    NoDup (seen (merge_loop fr net max urls st)).
Proof.
  induction urls as [|u us IH]; intros st Hs Hn.
  - exists []. rewrite app_nil_r. auto.
  - simpl. destruct (negb (max =? 0)%Z && (max <=? processed st)%Z).
    + exists []. rewrite app_nil_r. auto.
    + destruct (fetch_and_extract fr (net (List.length (gets (trace st)))) u) as [sites evs].
      rewrite Hs in Hn |- *.
      destruct (add_sites_seen sites (merged st) Hn) as [o1 [Ha Hn1]]. rewrite Ha.
      destruct (IH (mkState (merged st ++ o1) (map normalize_site (merged st ++ o1))
                    (processed st + 1) (trace st ++ evs ++ [ESleep])))
        as [o2 (Hm & Hs2 & Hn2)]; [reflexivity | exact Hn1 |].
      exists (o1 ++ o2). split; [rewrite Hm; symmetry; apply app_assoc | auto].
Qed.

(** X7: after the loop of [main], [seen] holds exactly the
    [normalize_site] keys of [merged], in order, each once; whatever the
    URLs, the network, the cap and the parsed values. *)
Theorem merge_sites_seen fr net max urls :
  seen (merge_sites fr net max urls) = map normalize_site (merged (merge_sites fr net max urls)) /\
  NoDup (seen (merge_sites fr net max urls)).
Proof.
  destruct (merge_loop_seen fr net max urls init_state eq_refl (NoDup_nil _)) as [_ (_ & H1 & H2)].
  auto.
Qed.

(** X8: on a 200 response, [fetch_and_extract] returns the [sites] list
    of a dict [r.json()] or a list [r.json()] itself, and otherwise what
    [extract_sites_from_text] finds in [r.text]: the [obj.get("sites")]
    test and the final emptiness test change nothing. *)
Theorem sites_of_response_eq fr rjson text :
  sites_of_response fr rjson text =
  match sites_of_parsed rjson with Some l => l | None => extract_sites_from_text fr text end.
Proof.
  unfold sites_of_response, sites_of_parsed.
  destruct rjson as [[| | | | | l | d]|]; try (destruct (extract_sites_from_text fr text); reflexivity).
  destruct (lookup (py "sites") d) as [[| | | | | l | o]|];
    try (destruct (extract_sites_from_text fr text); reflexivity).
Qed.

(** X9: the only falsy URL [main] can resolve is the empty string:
    object entries give truthy values only, and the other URLs are
    strings, which are falsy only when empty. *)
Theorem resolve_urls_falsy data u :
  In u (resolve_urls data) -> truthy u = false -> u = JStr [].
Proof.
  intros Hin Ht.
  assert (Hf : forall l, In u (map JStr l) -> u = JStr []).
  { intros l H. apply in_map_iff in H as [s [<- _]]. simpl in Ht.
    destruct s; [reflexivity|discriminate]. }
  unfold resolve_urls in Hin. destruct data as [| | | | | |d]; try exact (Hf _ Hin).
  destruct (lookup (py "urls") d) as [[| | | | | l |]|]; try exact (Hf _ Hin).
  apply in_flat_map in Hin as [e [_ He]].
  destruct e as [| | | |s| |o]; simpl in He; try contradiction.
  - destruct He as [<-|[]]. simpl in Ht. destruct s; [reflexivity|discriminate].
  - destruct (truthy _) eqn:E in He; [|contradiction]. destruct He as [<-|[]]. congruence.
Qed.

Lemma resolve_urls_falsy_witness :
  let data := JObj [(py "urls", JArr [JStr []; JObj [(py "url", JInt 0); (py "link", JStr (py "http://a"))]])] in
  In (JStr []) (resolve_urls data) /\ truthy (JStr []) = false /\ JStr [] = JStr [].
Proof.
  intros data.
  assert (Hin : In (JStr []) (resolve_urls data)) by (vm_compute; left; reflexivity).
  assert (Ht : truthy (JStr []) = false) by reflexivity.
  split; [exact Hin|]. split; [exact Ht|].
  exact (resolve_urls_falsy data (JStr []) Hin Ht).
Defined.

Lemma merge_loop_trace fr net max us : forall st p,
  processed st = Z.of_nat p ->
  let k := if (max =? 0)%Z then List.length us
           else Nat.min (Z.to_nat max - p) (List.length us) in
  trace (merge_loop fr net max us st) = trace st ++ flat_map url_events (firstn k us).
Proof.
  induction us as [|u us IH]; intros st p Hp k.
  - subst k; destruct (max =? 0)%Z; simpl; rewrite ?Nat.min_0_r, ?app_nil_r; reflexivity.
  - assert (Hstep : forall k', k = S k' ->
              (max = 0 \/ processed st < max)%Z ->
              (if (max =? 0)%Z then List.length us
               else Nat.min (Z.to_nat max - S p) (List.length us)) = k' ->
              trace (merge_loop fr net max (u :: us) st)
                = trace st ++ flat_map url_events (firstn k (u :: us))).
    { intros k' Ek Hc Ek'. rewrite (merge_loop_step fr net max u us st Hc).
      pose proof (fetch_and_extract_events fr (net (List.length (gets (trace st)))) u) as Ev.
      destruct (fetch_and_extract fr (net (List.length (gets (trace st)))) u) as [sites evs].
      simpl in Ev; subst evs.
      destruct (add_sites sites (merged st, seen st)) as [m sn].
      pose proof (IH (mkState m sn (processed st + 1) (trace st ++ (if truthy u then [EGet u] else []) ++ [ESleep])) (S p)
                    ltac:(simpl; lia)) as IH'.
      cbv zeta in IH'. rewrite Ek' in IH'. rewrite IH', Ek. simpl.
      unfold url_events. rewrite <- !app_assoc. reflexivity. }
    subst k; destruct (max =? 0)%Z eqn:Em.
    + apply Z.eqb_eq in Em; subst max.
      apply (Hstep (List.length us)); simpl; auto.
    + apply Z.eqb_neq in Em.
      destruct (Z.leb max (Z.of_nat p)) eqn:Hl.
      * apply Z.leb_le in Hl.
        assert (E0 : Z.to_nat max - p = 0) by lia.
        rewrite E0; simpl.
        replace (negb (max =? 0)%Z && (max <=? processed st)%Z) with true
          by (rewrite Hp; apply Z.eqb_neq in Em; rewrite Em; simpl; symmetry;
              apply Z.leb_le; exact Hl).
        rewrite app_nil_r; reflexivity.
      * apply Z.leb_gt in Hl.
        assert (E1 : Z.to_nat max - p = S (Z.to_nat max - S p)) by lia.
        apply (Hstep (Nat.min (Z.to_nat max - S p) (List.length us))).
        -- rewrite E1; reflexivity.
        -- right; rewrite Hp; exact Hl.
        -- reflexivity.
Qed.

(** X10: the loop records, for each of the URLs it processes, in order,
    a GET when the URL is truthy and then one delay; the delay follows
    every processed URL, the failed, empty and last ones included. *)
Theorem merge_sites_trace fr net max urls :
  let n := if (max =? 0)%Z then List.length urls
           else Nat.min (Z.to_nat max) (List.length urls) in
  trace (merge_sites fr net max urls) = flat_map url_events (firstn n urls).
Proof.
  intros n. unfold merge_sites.
  rewrite (merge_loop_trace fr net max urls init_state 0 eq_refl).
  rewrite Nat.sub_0_r. reflexivity.
Qed.

(** ** The regular expressions and the repair *)

Lemma skip_space_spec t : exists w, t = w ++ skip_space t /\ Forall (fun c => py_isspace c = true) w.
Proof.
  induction t as [|c t IH]; simpl.
  - exists []; auto.
  - destruct (py_isspace c) eqn:E.
    + destruct IH as [w [Ew Hw]]. exists (c :: w). simpl. rewrite <- Ew. auto.
    + exists []; auto.
Qed.

Lemma subseq_refl {A} (l : list A) : subseq l l.
Proof. induction l; constructor; auto. Qed.

Lemma subseq_drop_app {A} (w l1 l2 : list A) : subseq l1 l2 -> subseq l1 (w ++ l2).
Proof. induction w; simpl; auto using subseq_drop. Qed.

Lemma filter_spaces (w t : pystr) : Forall (fun c => py_isspace c = true) w ->
  filter (fun c => negb (space_or_comma c)) (w ++ t) = filter (fun c => negb (space_or_comma c)) t.
Proof.
  induction 1 as [|c w Hc _ IH]; simpl; [reflexivity|].
  unfold space_or_comma at 1. rewrite Hc, orb_true_r. exact IH.
Qed.

Lemma strip_trailing_commas_fuel_spec n : forall t,
  subseq (strip_trailing_commas_fuel n t) t /\
  filter (fun c => negb (space_or_comma c)) (strip_trailing_commas_fuel n t)
  = filter (fun c => negb (space_or_comma c)) t.
Proof.
  induction n as [|n IH]; intros t; simpl; [split; [apply subseq_refl|reflexivity]|].
  destruct t as [|c r]; [split; [constructor|reflexivity]|].
  destruct (IH r) as [S1 F1].
  assert (Hkeep : subseq (c :: strip_trailing_commas_fuel n r) (c :: r) /\
          filter (fun c => negb (space_or_comma c)) (c :: strip_trailing_commas_fuel n r)
          = filter (fun c => negb (space_or_comma c)) (c :: r))
    by (split; [constructor; exact S1 | simpl; rewrite F1; reflexivity]).
  destruct (c =? 44)%N eqn:Ec; [|exact Hkeep].
  destruct (skip_space_spec r) as [w [Ew Hw]].
  destruct (skip_space r) as [|b r'] eqn:Es; [exact Hkeep|].
  destruct ((b =? 93)%N || (b =? 125)%N); [|exact Hkeep].
  destruct (IH r') as [S2 F2]. rewrite Ew. split.
  - apply subseq_drop, subseq_drop_app. constructor; exact S2.
  - simpl. replace (space_or_comma c) with true by (unfold space_or_comma; rewrite Ec; reflexivity). simpl.
    rewrite filter_spaces by exact Hw. simpl. rewrite F2. reflexivity.
Qed.

(** X11: the [re.sub] repair only deletes characters, and only commas and
    [\s] characters: the repaired text is a subsequence of the captured
    one, with the same characters once commas and whitespace are left
    out. *)
Theorem strip_trailing_commas_deletes t :
  subseq (strip_trailing_commas t) t /\
  filter (fun c => negb (space_or_comma c)) (strip_trailing_commas t)
  = filter (fun c => negb (space_or_comma c)) t.
Proof. apply strip_trailing_commas_fuel_spec. Qed.

Lemma match_lit_ci_spec p t r : match_lit_ci p t = Some r ->
  exists m, t = m ++ r /\ Forall2 (fun x c => ci_char x c = true) p m.
Proof.
  revert t; induction p as [|x p IH]; intros t H; simpl in H.
  - inversion H; subst. exists []; auto.
  - destruct t as [|c t]; [discriminate|].
    destruct (ci_char x c) eqn:E; [|discriminate].
    destruct (IH t H) as [m [-> Hm]]. exists (c :: m); auto.
Qed.

Lemma upto_close_spec t cap r : upto_close t = Some (cap, r) ->
  exists body, cap = body ++ [93%N] /\ ~ In 93%N body /\ t = body ++ 93%N :: r.
Proof.
  revert cap; induction t as [|c t IH]; intros cap H; simpl in H; [discriminate|].
  destruct (c =? 93)%N eqn:E.
  - inversion H; subst. apply N.eqb_eq in E; subst. exists []; simpl; auto.
  - destruct (upto_close t) as [[cap' r']|] eqn:Eu; [|discriminate].
    inversion H; subst. destruct (IH cap' eq_refl) as (body & -> & Hn & ->).
    exists (c :: body). apply N.eqb_neq in E. simpl. repeat split; auto.
    intros [H'|H']; auto.
Qed.

Lemma sites_at_spec t cap : sites_at t = Some cap ->
  exists m w1 w2 body rest,
    t = m ++ w1 ++ 58%N :: w2 ++ 91%N :: body ++ 93%N :: rest /\
    cap = 91%N :: body ++ [93%N] /\ ~ In 93%N body /\
    Forall2 (fun x c => ci_char x c = true) (pyq "`sites`") m /\
    Forall (fun c => py_isspace c = true) w1 /\ Forall (fun c => py_isspace c = true) w2.
Proof.
  unfold sites_at. intros H.
  destruct (match_lit_ci (pyq "`sites`") t) as [r1|] eqn:E1; [|discriminate].
  destruct (match_lit_ci_spec _ _ _ E1) as [m [Et Hm]].
  destruct (skip_space_spec r1) as [w1 [Ew1 Hw1]].
  destruct (skip_space r1) as [|c r2]; [discriminate|].
  destruct (c =? 58)%N eqn:Ec; [|discriminate]. apply N.eqb_eq in Ec; subst c.
  destruct (skip_space_spec r2) as [w2 [Ew2 Hw2]].
  destruct (skip_space r2) as [|b r3]; [discriminate|].
  destruct (b =? 91)%N eqn:Eb; [|discriminate]. apply N.eqb_eq in Eb; subst b.
  destruct (upto_close r3) as [[cap' rest]|] eqn:Eu; [|discriminate].
  inversion H; subst.
  destruct (upto_close_spec _ _ _ Eu) as (body & -> & Hn & ->).
  exists m, w1, w2, body, rest. subst. repeat split; auto.
Qed.

(** X12: a capture of [SITES_REGEX.search] is a [\[] and the text up to
    and including the first [\]] after it (so it ends at the first inner
    [\]] of a nested array); it follows a ["sites"] matched without regard
    to case, [\s*:\s*]; and no match starts earlier in the text. *)
Theorem sites_search_capture t cap : sites_search t = Some cap ->
  exists pre m w1 w2 body rest,
    t = pre ++ m ++ w1 ++ 58%N :: w2 ++ 91%N :: body ++ 93%N :: rest /\
    cap = 91%N :: body ++ [93%N] /\ ~ In 93%N body /\
    Forall2 (fun x c => ci_char x c = true) (pyq "`sites`") m /\
    Forall (fun c => py_isspace c = true) w1 /\ Forall (fun c => py_isspace c = true) w2 /\
    (forall i, i < List.length pre -> sites_at (skipn i t) = None).
Proof.
  induction t as [|c t IH]; intros H; simpl in H.
  - discriminate.
  - destruct (sites_at (c :: t)) as [cap'|] eqn:E.
    + inversion H; subst.
      destruct (sites_at_spec _ _ E) as (m & w1 & w2 & body & rest & Et & Hc & Hn & Hm & H1 & H2).
      exists [], m, w1, w2, body, rest. repeat split; auto. intros i Hi; simpl in Hi; lia.
    + destruct (IH H) as (pre & m & w1 & w2 & body & rest & Et & Hc & Hn & Hm & H1 & H2 & Hl).
      exists (c :: pre), m, w1, w2, body, rest.
      split; [rewrite Et; reflexivity|]. repeat split; auto.
      intros [|i] Hi; [exact E|]. simpl in Hi |- *. apply Hl. lia.
Qed.

Lemma sites_search_capture_witness :
  let t := pyq "x `Sites` : [1, [2]], 3] y" in
  let cap := py "[1, [2]" in
  sites_search t = Some cap /\
  exists pre m w1 w2 body rest,
    t = pre ++ m ++ w1 ++ 58%N :: w2 ++ 91%N :: body ++ 93%N :: rest /\
    cap = 91%N :: body ++ [93%N] /\ ~ In 93%N body /\
    Forall2 (fun x c => ci_char x c = true) (pyq "`sites`") m /\
    Forall (fun c => py_isspace c = true) w1 /\ Forall (fun c => py_isspace c = true) w2 /\
    (forall i, i < List.length pre -> sites_at (skipn i t) = None).
Proof.
  intros t cap.
  assert (E : sites_search t = Some cap) by (vm_compute; reflexivity).
  split; [exact E|]. exact (sites_search_capture t cap E).
Defined.

Lemma sites_of_parsed_wf fr text l : (forall s, float_tokenb (fr s) = true) ->
  sites_of_parsed (json_loads fr text) = Some l -> Forall (fun s => wf_json s = true) l.
Proof.
  intros Hfr. unfold sites_of_parsed.
  destruct (json_loads fr text) as [v|] eqn:E; [|discriminate].
  pose proof (json_loads_wf fr text v Hfr E) as Hw.
  destruct v as [| | | | |l'|d]; try discriminate.
  - intros H; inversion H; subst. apply wf_json_arr, Hw.
  - destruct (lookup (py "sites") d) as [[| | | | |l'|]|] eqn:El; try discriminate.
    intros H; inversion H; subst.
    apply wf_json_obj in Hw as [_ Hw]. rewrite Forall_forall in Hw.
    apply lookup_In in El. apply wf_json_arr, (Hw _ El).
Qed.

Lemma json_loads_arr_wf fr text l : (forall s, float_tokenb (fr s) = true) ->
  json_loads fr text = Some (JArr l) -> Forall (fun s => wf_json s = true) l.
Proof. intros Hfr E. apply wf_json_arr, (json_loads_wf fr text _ Hfr E). Qed.

(** X6: when [float_repr] gives tokens of the float shape, every site
    [extract_sites_from_text] returns, by any of its paths, has distinct
    keys in every dict and float tokens as [json.dumps] prints them: the
    condition under which [normalize_site] keys compare sites by
    structure (C1). *)
Theorem extract_sites_wf fr text : (forall s, float_tokenb (fr s) = true) ->
  Forall (fun s => wf_json s = true) (extract_sites_from_text fr text).
Proof.
  intros Hfr. unfold extract_sites_from_text.
  destruct (sites_of_parsed (json_loads fr text)) as [l|] eqn:E.
  - exact (sites_of_parsed_wf fr text l Hfr E).
  - unfold extract_sites_by_regex.
    destruct (sites_search text) as [arr|]; [|constructor].
    destruct (json_loads fr arr) as [[| | | | |l|]|] eqn:E1; try constructor;
      [exact (json_loads_arr_wf fr arr l Hfr E1)|].
    destruct (json_loads fr (strip_trailing_commas arr)) as [[| | | | |l|]|] eqn:E2; try constructor.
    exact (json_loads_arr_wf fr _ l Hfr E2).
Qed.

Lemma extract_sites_wf_witness :
  let fr := fun _ : pystr => py "1.5" in
  let text := pyq "junk `sites`: [{`a`: 1.50, `a`: 2}, 3,] end" in
  (forall s, float_tokenb (fr s) = true) /\
  Forall (fun s => wf_json s = true) (extract_sites_from_text fr text).
Proof.
  intros fr text.
  assert (Hfr : forall s, float_tokenb (fr s) = true) by (intros s; reflexivity).
  split; [exact Hfr|]. exact (extract_sites_wf fr text Hfr).
Defined.
